(** * binding-mock: the mock serial-port binding, embedded and verified

    Source: packages/binding-mock/lib/binding-mock.ts.

    The module keeps a process-wide table [ports] of mock devices and a
    process-wide counter [serialNumber]; a [MockBinding] instance refers to
    one device object while it is open.  Device objects are shared between
    the table and the instance, so they live in a store ([heap]) and both
    sides hold a location.  Buffers handed in by the caller are shared with
    the caller in the same way ([bufs]).

    Every [async] method is cut at its [await]s: the part that runs when the
    method is called carries the method's name ([open], [read], ...), the
    part that runs after the await is [open_resumed], [read_resumed], ...
    Deferred work sits in the two queues of the Node event loop, the
    [process.nextTick] queue ([ticks]) and the promise job queue ([micro]).
    Line numbers refer to binding-mock.ts.  The static [list()] is not
    needed below and is left out. *)

From Stdlib Require Import ZArith NArith List Lia Sorted Strings.Byte.
From Stdlib Require Strings.String.
From stdpp Require Import base option list gmap strings.


(** ** Values *)

Abbreviation loc := nat (only parsing).
Abbreviation pid := nat (only parsing).
Abbreviation bytes := (list byte) (only parsing).

(** JavaScript primitives reaching the binding.  Numbers are the integral
    ones; nothing below does arithmetic on them. *)
Inductive Prim :=
| PUndefined
| PNull
| PBool (b : bool)
| PNum (z : Z)
| PStr (s : string).

(** A plain options object is a finite map from property names. *)
Inductive JsVal :=
| VPrim (p : Prim)
| VObj (o : gmap string Prim).

(** [typeof v === 'object'] (true of [null] as well). *)
Definition typeof_object (v : JsVal) : bool :=
  match v with
  | VObj _ => true
  | VPrim PNull => true
  | VPrim _ => false
  end.

(** [typeof p === 'number']. *)
Definition typeof_number (p : Prim) : bool :=
  match p with PNum _ => true | _ => false end.

(** Truthiness of a primitive. *)
Definition truthy (p : Prim) : bool :=
  match p with
  | PUndefined | PNull => false
  | PBool b => b
  | PNum z => negb (z =? 0)%Z
  | PStr s => negb (String.eqb s "")
  end.

(** Property read [o.name] on an object: [undefined] when absent. *)
Definition prop (o : gmap string Prim) (name : string) : Prim :=
  default PUndefined (o !! name).

(** [Object.assign({}, options)] for an [options] that passed the
    [typeof options === 'object'] test: a fresh object with the same own
    properties, the empty object for [null]. *)
Definition object_assign (options : JsVal) : gmap string Prim :=
  match options with
  | VObj o => o
  | VPrim _ => ∅
  end.

(** The argument of [write]: a Buffer (by reference) or anything else. *)
Inductive JsArg :=
| ABuffer (r : loc)
| AOther (v : JsVal).

(** ** Errors

    One constructor per [throw] of the source; the message is given in the
    comment.  [JsTypeError] is the runtime's own TypeError for a property
    access on [null]; [BadRef] marks a location without an object, which
    JavaScript cannot produce. *)
Inductive Error :=
| InvalidPath        (* TypeError: "path" is not a valid port *)
| InvalidOptions     (* TypeError: "options" is not an object *)
| InvalidBaudRate    (* TypeError: "options.baudRate" is not a number *)
| InvalidBuffer      (* TypeError: "buffer" is not a Buffer *)
| NotFound           (* Port does not exist - please call MockBinding.createPort *)
| LockConflict       (* Port is locked cannot open *)
| AlreadyOpen        (* Open: binding is already open *)
| AlreadyClosed      (* already closed *)
| PortClosed         (* port is closed *)
| ReadCanceled       (* Read canceled *)
| WriteCanceled      (* Write canceled *)
| NotOpen            (* Port is not open *)
| OverlappingWrite   (* Overlapping writes are not supported ... *)
| EmitNotOpen        (* Port must be open to pretend to receive data *)
| JsTypeError
| BadRef.

(** Which of them are instances of [TypeError]. *)
Definition is_TypeError (e : Error) : bool :=
  match e with
  | InvalidPath | InvalidOptions | InvalidBaudRate | InvalidBuffer | JsTypeError => true
  | _ => false
  end.

(** ** The data model *)

Record PortInfo := {
  comName : string;
  manufacturer : string;
  info_serialNumber : N       (* the decimal string String(serialNumber) *)
}.

(** interface MockPort *)
Record MockPort := {
  info : PortInfo;
  data : bytes;
  echo : bool;
  record : bool;
  readyData : bytes;
  openOpt : option (gmap string Prim)
}.

Definition set_data (d : bytes) (p : MockPort) : MockPort :=
  {| info := info p; data := d; echo := echo p; record := record p;
     readyData := readyData p; openOpt := openOpt p |}.

Definition set_openOpt (o : option (gmap string Prim)) (p : MockPort) : MockPort :=
  {| info := info p; data := data p; echo := echo p; record := record p;
     readyData := readyData p; openOpt := o |}.

(** The closure stored in [this.pendingRead]: it captures the arguments of
    the suspended [read] and the resolve/reject pair of its promise. *)
Record ReadK := {
  rk_buffer : loc;
  rk_offset : nat;
  rk_length : nat;
  rk_promise : pid
}.

(** The fields of a [MockBinding] instance. *)
Record Instance := {
  lastWrite : option bytes;
  pendingRead : option ReadK;
  port : option loc;
  recording : bytes;
  inst_serialNumber : option N;
  writeOperation : option pid;
  isOpen : bool
}.

Definition set_lastWrite (x : option bytes) (i : Instance) : Instance :=
  {| lastWrite := x; pendingRead := pendingRead i; port := port i;
     recording := recording i; inst_serialNumber := inst_serialNumber i;
     writeOperation := writeOperation i; isOpen := isOpen i |}.

Definition set_pendingRead (x : option ReadK) (i : Instance) : Instance :=
  {| lastWrite := lastWrite i; pendingRead := x; port := port i;
     recording := recording i; inst_serialNumber := inst_serialNumber i;
     writeOperation := writeOperation i; isOpen := isOpen i |}.

Definition set_port (x : option loc) (i : Instance) : Instance :=
  {| lastWrite := lastWrite i; pendingRead := pendingRead i; port := x;
     recording := recording i; inst_serialNumber := inst_serialNumber i;
     writeOperation := writeOperation i; isOpen := isOpen i |}.

Definition set_recording (x : bytes) (i : Instance) : Instance :=
  {| lastWrite := lastWrite i; pendingRead := pendingRead i; port := port i;
     recording := x; inst_serialNumber := inst_serialNumber i;
     writeOperation := writeOperation i; isOpen := isOpen i |}.

Definition set_inst_serialNumber (x : option N) (i : Instance) : Instance :=
  {| lastWrite := lastWrite i; pendingRead := pendingRead i; port := port i;
     recording := recording i; inst_serialNumber := x;
     writeOperation := writeOperation i; isOpen := isOpen i |}.

Definition set_writeOperation (x : option pid) (i : Instance) : Instance :=
  {| lastWrite := lastWrite i; pendingRead := pendingRead i; port := port i;
     recording := recording i; inst_serialNumber := inst_serialNumber i;
     writeOperation := x; isOpen := isOpen i |}.

Definition set_isOpen (x : bool) (i : Instance) : Instance :=
  {| lastWrite := lastWrite i; pendingRead := pendingRead i; port := port i;
     recording := recording i; inst_serialNumber := inst_serialNumber i;
     writeOperation := writeOperation i; isOpen := x |}.

(** The constructor (lines 40-49). *)
Definition new_instance : Instance :=
  {| lastWrite := None; pendingRead := None; port := None; recording := [];
     inst_serialNumber := None; writeOperation := None; isOpen := false |}.

(** ** Results, continuations and the event loop *)

(** What a method resolves with. *)
Inductive Value :=
| VUnit
| VCount (n : nat)                   (* read *)
| VFlags (cts dsr dcd : bool)        (* get *)
| VBaud (b : Prim).                  (* getBaudRate *)

(** The rest of an async method after an [await]. *)
Inductive Cont :=
| KOpen (path : string) (options : JsVal) (p : pid)
| KRead (rk : ReadK)
| KWrite (buffer : loc) (p : pid)
| KUpdate (options : gmap string Prim) (p : pid)
| KSet (p : pid)
| KGet (p : pid)
| KGetBaudRate (p : pid)
| KFlush (p : pid)
| KDrainWritten (w : option pid) (p : pid)
| KDrainDone (p : pid).

(** The promise a continuation settles when it finishes. *)
Definition cont_pid (k : Cont) : pid :=
  match k with
  | KOpen _ _ p | KWrite _ p | KUpdate _ p | KSet p | KGet p
  | KGetBaudRate p | KFlush p | KDrainWritten _ p | KDrainDone p => p
  | KRead rk => rk_promise rk
  end.

(** A callback in the [process.nextTick] queue. *)
Inductive Task :=
| TResolve (k : Cont)      (* resolveNextTick: () => resolve(value) *)
| TReady (l : loc)         (* open: () => { if (this.isOpen) this.emitData(port.readyData) } *)
| TEcho (d : bytes)        (* write: () => { if (this.isOpen) this.emitData(data) } *)
| TWake (rk : ReadK).      (* emitData: process.nextTick(this.pendingRead) *)

Inductive PromState :=
| Pending (waiters : list Cont)
| Fulfilled (v : Value)
| Rejected (e : Error).

(** How a segment of an async method ends. *)
Inductive Next :=
| Return (v : Value)
| AwaitTick (k : Cont)                     (* await resolveNextTick() *)
| AwaitPromise (w : option pid) (k : Cont) (* await this.writeOperation *)
| Park.                                    (* return a promise left pending *)

Record State := {
  ports : gmap string loc;          (* let ports: PortsList *)
  serialNumber : N;                 (* let serialNumber: a number, integer-valued *)
  heap : gmap loc MockPort;         (* the MockPort objects *)
  bufs : gmap loc bytes;            (* the caller's Buffers *)
  this : Instance;
  proms : gmap pid PromState;
  ticks : list Task;
  micro : list Cont;
  in_micro : bool;                  (* the loop is draining promise jobs *)
  uncaught : list Error             (* exceptions thrown out of a tick callback *)
}.

Definition set_ports (x : gmap string loc) (s : State) : State :=
  {| ports := x; serialNumber := serialNumber s; heap := heap s; bufs := bufs s;
     this := this s; proms := proms s; ticks := ticks s; micro := micro s;
     in_micro := in_micro s; uncaught := uncaught s |}.

Definition set_serialNumber (x : N) (s : State) : State :=
  {| ports := ports s; serialNumber := x; heap := heap s; bufs := bufs s;
     this := this s; proms := proms s; ticks := ticks s; micro := micro s;
     in_micro := in_micro s; uncaught := uncaught s |}.

Definition set_heap (x : gmap loc MockPort) (s : State) : State :=
  {| ports := ports s; serialNumber := serialNumber s; heap := x; bufs := bufs s;
     this := this s; proms := proms s; ticks := ticks s; micro := micro s;
     in_micro := in_micro s; uncaught := uncaught s |}.

Definition set_bufs (x : gmap loc bytes) (s : State) : State :=
  {| ports := ports s; serialNumber := serialNumber s; heap := heap s; bufs := x;
     this := this s; proms := proms s; ticks := ticks s; micro := micro s;
     in_micro := in_micro s; uncaught := uncaught s |}.

Definition set_this (x : Instance) (s : State) : State :=
  {| ports := ports s; serialNumber := serialNumber s; heap := heap s; bufs := bufs s;
     this := x; proms := proms s; ticks := ticks s; micro := micro s;
     in_micro := in_micro s; uncaught := uncaught s |}.

Definition set_proms (x : gmap pid PromState) (s : State) : State :=
  {| ports := ports s; serialNumber := serialNumber s; heap := heap s; bufs := bufs s;
     this := this s; proms := x; ticks := ticks s; micro := micro s;
     in_micro := in_micro s; uncaught := uncaught s |}.

Definition set_ticks (x : list Task) (s : State) : State :=
  {| ports := ports s; serialNumber := serialNumber s; heap := heap s; bufs := bufs s;
     this := this s; proms := proms s; ticks := x; micro := micro s;
     in_micro := in_micro s; uncaught := uncaught s |}.

Definition set_micro (x : list Cont) (s : State) : State :=
  {| ports := ports s; serialNumber := serialNumber s; heap := heap s; bufs := bufs s;
     this := this s; proms := proms s; ticks := ticks s; micro := x;
     in_micro := in_micro s; uncaught := uncaught s |}.

Definition set_in_micro (x : bool) (s : State) : State :=
  {| ports := ports s; serialNumber := serialNumber s; heap := heap s; bufs := bufs s;
     this := this s; proms := proms s; ticks := ticks s; micro := micro s;
     in_micro := x; uncaught := uncaught s |}.

Definition set_uncaught (x : list Error) (s : State) : State :=
  {| ports := ports s; serialNumber := serialNumber s; heap := heap s; bufs := bufs s;
     this := this s; proms := proms s; ticks := ticks s; micro := micro s;
     in_micro := in_micro s; uncaught := x |}.

(** The module as loaded, with one freshly constructed instance. *)
Definition initial : State :=
  {| ports := ∅; serialNumber := 0%N; heap := ∅; bufs := ∅; this := new_instance;
     proms := ∅; ticks := []; micro := []; in_micro := false; uncaught := [] |}.

(** ** A state-and-exception monad for method bodies

    A [throw] keeps the state reached so far: assignments made before the
    throw are not undone. *)

Inductive Res (A : Type) :=
| Ok (a : A)
| Throw (e : Error).
Arguments Ok {A} a.
Arguments Throw {A} e.

Definition M (A : Type) : Type := State → Res A * State.

#[global] Instance M_ret : MRet M := λ A a s, (Ok a, s).
#[global] Instance M_bind : MBind M := λ A B f m s,
  match m s with
  | (Ok a, s') => f a s'
  | (Throw e, s') => (Throw e, s')
  end.

Definition throw {A} (e : Error) : M A := λ s, (Throw e, s).
(** [ports[path]].  The table holds the own properties of the [ports]
    object; a name that is not among them is looked up as [undefined].
    That is the result in JavaScript for every name but those the object
    inherits ([object_prototype_names] below, and the properties of a
    device after [createPort "__proto__"]): statements that depend on the
    lookup of a name that is not registered are made for [ordinary]
    names. *)
Definition lookupPort (path : string) : M (option loc) := λ s, (Ok (ports s !! path), s).
Definition lookupProm (q : pid) : M (option PromState) := λ s, (Ok (proms s !! q), s).
Definition getThis : M Instance := λ s, (Ok (this s), s).
Definition modThis (f : Instance → Instance) : M unit :=
  λ s, (Ok tt, set_this (f (this s)) s).

(** Dereference a device object / overwrite it. *)
Definition deref (l : loc) : M MockPort := λ s,
  match heap s !! l with
  | Some p => (Ok p, s)
  | None => (Throw BadRef, s)
  end.
Definition store (l : loc) (p : MockPort) : M unit :=
  λ s, (Ok tt, set_heap (<[l := p]> (heap s)) s).

(** [process.nextTick(t)] *)
Definition nextTick (t : Task) : M unit :=
  λ s, (Ok tt, set_ticks (ticks s ++ [t]) s).

(** The guard [if (!this.isOpen || !this.port) throw ...]: the same error
    whichever of the two tests fires; past it, [this.port] is the device
    object. *)
Definition guardOpen (e : Error) : M loc :=
  i ← getThis;
  match port i with
  | Some l => if negb (isOpen i) then throw e else mret l
  | None => throw e
  end.

(** Resolving or rejecting a promise: only a pending promise changes, and
    the tasks awaiting it become promise jobs. *)
Definition settle (p : pid) (o : PromState) : M unit := λ s,
  match proms s !! p with
  | Some (Pending ws) =>
      (Ok tt, set_micro (micro s ++ ws) (set_proms (<[p := o]> (proms s)) s))
  | _ => (Ok tt, s)
  end.

(** ** The registry: static methods *)

(** static reset() (lines 52-54) *)
Definition reset (s : State) : State := set_ports ∅ s.

(** The [options] of [createPort]: each default can be overridden. *)
Record PortOptions := {
  o_echo : option bool;
  o_record : option bool;
  o_readyData : option bytes
}.

Definition no_options : PortOptions :=
  {| o_echo := None; o_record := None; o_readyData := None |}.

Definition READY : bytes := String.list_byte_of_string "READY".

(** A non-negative integer as a JavaScript number: the nearest double,
    ties to the even significand.  The integers up to 2^53 are doubles;
    above, [e] low bits are dropped. *)
Definition to_double (m : N) : N :=
  if (m <? 2 ^ 53)%N then m
  else
    let e := (N.log2 m - 52)%N in
    let q := (m / 2 ^ e)%N in
    let r := (m mod 2 ^ e)%N in
    let half := (2 ^ (e - 1))%N in
    ((if (r <? half)%N then q
      else if (half <? r)%N then q + 1
      else if N.even q then q else q + 1) * 2 ^ e)%N.

(** [serialNumber++] (line 58): the sum with 1, as a double.  It is exact
    below 2^53; at 2^53 the sum is rounded back to 2^53 and the counter
    stays there. *)
Definition js_incr (n : N) : N := to_double (n + 1).

(** The names every plain object inherits from [Object.prototype], and
    the names of the properties of a device object.  A path is ordinary
    when it is none of them: then [ports[path]] is the own property of
    that name or [undefined], and [ports[path] = ...] adds or replaces an
    own property. *)
Definition object_prototype_names : list string :=
  [ "constructor"; "hasOwnProperty"; "isPrototypeOf"; "propertyIsEnumerable";
    "toLocaleString"; "toString"; "valueOf"; "__proto__";
    "__defineGetter__"; "__defineSetter__"; "__lookupGetter__"; "__lookupSetter__" ].

Definition device_property_names : list string :=
  [ "data"; "echo"; "record"; "readyData"; "openOpt"; "info" ].

Definition ordinary (path : string) : bool :=
  bool_decide (path ∉ object_prototype_names ++ device_property_names).

(** static createPort(path, options) (lines 57-83): the counter goes up, a new device
    object is allocated and [ports[path]] is pointed at it.  Under the
    name "__proto__" the assignment makes the device the prototype of the
    table instead of an own property; the entry of that name stands for
    it, and [ports["__proto__"]] reads it back. *)
Definition createPort (path : string) (options : PortOptions) (s : State) : State :=
  let n := js_incr (serialNumber s) in
  let l := fresh (dom (heap s)) in
  let p := {| info := {| comName := path;
                         manufacturer := "The J5 Robotics Company";
                         info_serialNumber := n |};
              data := [];
              echo := default false (o_echo options);
              record := default false (o_record options);
              readyData := default READY (o_readyData options);
              openOpt := None |} in
  set_ports (<[path := l]> (ports s))
    (set_heap (<[l := p]> (heap s))
      (set_serialNumber n s)).

(** ** The instance methods *)

(** emitData(data) (lines 93-107); [d] is [data] as a Buffer, after [Buffer.from] when the
    caller passed something else. *)
Definition emitData (d : bytes) : M unit :=
  i ← getThis;
  l ← guardOpen EmitNotOpen;
  p ← deref l;
  store l (set_data (data p ++ d) p);;
  match pendingRead i with
  | Some rk => nextTick (TWake rk);; modThis (set_pendingRead None)
  | None => mret tt
  end.

(** [port.openOpt && port.openOpt.lock] *)
Definition lock_held (p : MockPort) : bool :=
  match openOpt p with
  | Some o => truthy (prop o "lock")
  | None => false
  end.

(** open(path, options) (lines 109-118), up to [await resolveNextTick()].
    The continuation keeps the [options] object; what it holds when the
    method resumes is what the caller has made of it by then
    ([AChangeOptions] below). *)
Definition open (path : string) (options : JsVal) (p : pid) : M Next :=
  if String.eqb path "" then throw InvalidPath
  else if negb (typeof_object options) then throw InvalidOptions
  else mret (AwaitTick (KOpen path options p)).

(** open, from [const port = (this.port = ports[path])] on (lines 119-145). *)
Definition open_resumed (path : string) (options : JsVal) : M Next :=
  found ← lookupPort path;
  modThis (set_port found);;
  match found with
  | None => throw NotFound
  | Some l =>
      p ← deref l;
      modThis (set_inst_serialNumber (Some (info_serialNumber (info p))));;
      if lock_held p then throw LockConflict
      else
        i ← getThis;
        if negb (isOpen i) || negb (bool_decide (is_Some (port i)))
        then throw AlreadyOpen
        else
          store l (set_openOpt (Some (object_assign options)) p);;
          modThis (set_isOpen true);;
          (if echo p then nextTick (TReady l) else mret tt);;
          mret (Return VUnit)
  end.

(** close() (lines 147-163): no await inside.  [pendingRead] is called
    with the error, and is not cleared. *)
Definition close : M Next :=
  i ← getThis;
  l ← guardOpen AlreadyClosed;
  p ← deref l;
  store l (set_data [] (set_openOpt None p));;
  modThis (set_port None);;
  modThis (set_inst_serialNumber None);;
  modThis (set_isOpen false);;
  match pendingRead i with
  | Some rk => settle (rk_promise rk) (Rejected PortClosed)
  | None => mret tt
  end;;
  mret (Return VUnit).

(** read(buffer, offset, length) (lines 165-167), up to the await.
    [offset] and [length] are byte counts. *)
Definition read (buffer : loc) (offset length : nat) (p : pid) : M Next :=
  mret (AwaitTick (KRead {| rk_buffer := buffer; rk_offset := offset;
                            rk_length := length; rk_promise := p |})).

(** [source.copy(target, targetStart)]: as many bytes as fit behind
    [targetStart], none when [targetStart] is at or past the end; the
    count is returned. *)
Definition copy (source : bytes) (target : loc) (targetStart : nat) : M nat := λ s,
  match bufs s !! target with
  | Some b =>
      let n := Nat.min (length source) (length b - targetStart) in
      (Ok n, set_bufs (<[target := take targetStart b ++ take n source
                                     ++ drop (targetStart + n) b]> (bufs s)) s)
  | None => (Throw BadRef, s)
  end.

(** read, after the await (lines 168-186).  With an empty receive buffer the closure is
    parked in [this.pendingRead] and the promise stays pending. *)
Definition read_resumed (rk : ReadK) : M Next :=
  l ← guardOpen ReadCanceled;
  p ← deref l;
  if bool_decide (length (data p) ≤ 0) then
    modThis (set_pendingRead (Some rk));;
    mret Park
  else
    readLength ← copy (take (rk_length rk) (data p)) (rk_buffer rk) (rk_offset rk);
    store l (set_data (drop (rk_length rk) (data p)) p);;
    mret (Return (VCount readLength)).

(** write(buffer) (lines 188-203, 221), up to the await inside the in-flight operation; [p] is
    the promise of that operation, which [write] returns. *)
Definition write (buffer : JsArg) (p : pid) : M Next :=
  match buffer with
  | AOther _ => throw InvalidBuffer
  | ABuffer r =>
      i ← getThis;
      if negb (isOpen i) then throw NotOpen
      else if bool_decide (is_Some (writeOperation i)) then throw OverlappingWrite
      else
        modThis (set_writeOperation (Some p));;
        mret (AwaitTick (KWrite r p))
  end.

Definition readBuf (r : loc) : M bytes := λ s,
  match bufs s !! r with
  | Some b => (Ok b, s)
  | None => (Throw BadRef, s)
  end.

(** The in-flight write, after its await (lines 204-219).  When it
    throws 'Write canceled', [writeOperation] is left as it is. *)
Definition write_resumed (r : loc) : M Next :=
  l ← guardOpen WriteCanceled;
  d ← readBuf r;                                   (* Buffer.from(buffer) *)
  modThis (set_lastWrite (Some d));;
  p ← deref l;
  (if record p then modThis (λ i, set_recording (recording i ++ d) i) else mret tt);;
  (if echo p then nextTick (TEcho d) else mret tt);;
  modThis (set_writeOperation None);;
  mret (Return VUnit).

(** update(options) (lines 224-238), up to the await.  The continuation
    keeps the [options] object, not the baud rate read from it. *)
Definition update (options : JsVal) (p : pid) : M Next :=
  if negb (typeof_object options) then throw InvalidOptions
  else match options with
       | VPrim _ => throw JsTypeError               (* null.baudRate *)
       | VObj o =>
           if negb (typeof_number (prop o "baudRate")) then throw InvalidBaudRate
           else guardOpen NotOpen;; mret (AwaitTick (KUpdate o p))
       end.

(** [this.port.openOpt], as the left side of a property access. *)
Definition openOpt_of_this : M (loc * MockPort * gmap string Prim) :=
  i ← getThis;
  match port i with
  | None => throw JsTypeError
  | Some l =>
      p ← deref l;
      match openOpt p with
      | None => throw JsTypeError
      | Some o => mret (l, p, o)
      end
  end.

(** [this.port.openOpt.baudRate = options.baudRate] (line 239):
    [options.baudRate] is read now, from the object as it is when the
    method resumes. *)
Definition update_resumed (options : gmap string Prim) : M Next :=
  '(l, p, o) ← openOpt_of_this;
  store l (set_openOpt (Some (<["baudRate" := prop options "baudRate"]> o)) p);;
  mret (Return VUnit).

(** set(options) (lines 242-248) *)
Definition set (p : pid) : M Next :=
  guardOpen NotOpen;; mret (AwaitTick (KSet p)).
Definition set_resumed : M Next := mret (Return VUnit).

(** get() (lines 250-261) *)
Definition get (p : pid) : M Next :=
  guardOpen NotOpen;; mret (AwaitTick (KGet p)).
Definition get_resumed : M Next := mret (Return (VFlags true false false)).

(** getBaudRate() (lines 263-269) *)
Definition getBaudRate (p : pid) : M Next :=
  guardOpen NotOpen;; mret (AwaitTick (KGetBaudRate p)).
Definition getBaudRate_resumed : M Next :=
  '(_, _, o) ← openOpt_of_this;
  mret (Return (VBaud (prop o "baudRate"))).

(** flush() (lines 271-277) *)
Definition flush (p : pid) : M Next :=
  guardOpen NotOpen;; mret (AwaitTick (KFlush p)).
Definition flush_resumed : M Next :=
  i ← getThis;
  match port i with
  | None => throw JsTypeError
  | Some l => p ← deref l; store l (set_data [] p);; mret (Return VUnit)
  end.

(** drain() (lines 279-285): first awaits the in-flight write, then one tick. *)
Definition drain (p : pid) : M Next :=
  guardOpen NotOpen;;
  i ← getThis;
  mret (AwaitPromise (writeOperation i) (KDrainWritten (writeOperation i) p)).

(** After [await this.writeOperation]: a rejected write is rethrown. *)
Definition drain_written (w : option pid) (p : pid) : M Next :=
  match w with
  | Some q =>
      st ← lookupProm q;
      match st with
      | Some (Rejected e) => throw e
      | _ => mret (AwaitTick (KDrainDone p))
      end
  | None => mret (AwaitTick (KDrainDone p))
  end.
Definition drain_done : M Next := mret (Return VUnit).

(** ** Running the pieces *)

(** The body of a continuation. *)
Definition resume (k : Cont) : M Next :=
  match k with
  | KOpen path options _ => open_resumed path options
  | KRead rk => read_resumed rk
  | KWrite r _ => write_resumed r
  | KUpdate o _ => update_resumed o
  | KSet _ => set_resumed
  | KGet _ => get_resumed
  | KGetBaudRate _ => getBaudRate_resumed
  | KFlush _ => flush_resumed
  | KDrainWritten w p => drain_written w p
  | KDrainDone _ => drain_done
  end.

(** Run one segment of the async method whose promise is [p] and act on
    how it ends. *)
Definition spawn (p : pid) (m : M Next) (s : State) : State :=
  match m s with
  | (Throw e, s') => (settle p (Rejected e) s').2
  | (Ok (Return v), s') => (settle p (Fulfilled v) s').2
  | (Ok (AwaitTick k), s') => set_ticks (ticks s' ++ [TResolve k]) s'
  | (Ok (AwaitPromise w k), s') =>
      match w with
      | Some q =>
          match proms s' !! q with
          | Some (Pending ws) => set_proms (<[q := Pending (ws ++ [k])]> (proms s')) s'
          | _ => set_micro (micro s' ++ [k]) s'
          end
      | None => set_micro (micro s' ++ [k]) s'
      end
  | (Ok Park, s') => s'
  end.

(** A callback that throws raises an uncaught exception. *)
Definition run_callback (m : M unit) (s : State) : State :=
  match m s with
  | (Ok _, s') => s'
  | (Throw e, s') => set_uncaught (uncaught s' ++ [e]) s'
  end.

(** One tick callback. *)
Definition run_tick (t : Task) (s : State) : State :=
  match t with
  | TResolve k => set_micro (micro s ++ [k]) s
  | TReady l =>
      run_callback (i ← getThis;
                    if isOpen i then p ← deref l; emitData (readyData p)
                    else mret tt) s
  | TEcho d =>
      run_callback (i ← getThis; if isOpen i then emitData d else mret tt) s
  | TWake rk =>
      (* the closure, called without an error, calls this.read again and
         forwards its outcome to the parked promise *)
      spawn (rk_promise rk)
            (read (rk_buffer rk) (rk_offset rk) (rk_length rk) (rk_promise rk)) s
  end.

(** One promise job. *)
Definition run_micro (k : Cont) (s : State) : State :=
  spawn (cont_pid k) (resume k) s.

(** One turn of the loop: the tick queue is emptied first, then the promise
    jobs are run until none is left, then ticks again. *)
Definition loop_step (s : State) : State :=
  if in_micro s then
    match micro s with
    | k :: ks => run_micro k (set_micro ks s)
    | [] => set_in_micro false s
    end
  else
    match ticks s with
    | t :: ts => run_tick t (set_ticks ts s)
    | [] => match micro s with
            | [] => s
            | _ :: _ => set_in_micro true s
            end
    end.

Fixpoint run_loop (n : nat) (s : State) : State :=
  match n with
  | O => s
  | S n' => run_loop n' (loop_step s)
  end.

Definition idle (s : State) : Prop := ticks s = [] ∧ micro s = [].

(** ** Calls from the outside *)

Inductive Call :=
| COpen (path : string) (options : JsVal)
| CClose
| CRead (buffer : loc) (offset length : nat)
| CWrite (buffer : JsArg)
| CUpdate (options : JsVal)
| CSet
| CGet
| CGetBaudRate
| CFlush
| CDrain.

Definition start (c : Call) (p : pid) : M Next :=
  match c with
  | COpen path options => open path options p
  | CClose => close
  | CRead b off len => read b off len p
  | CWrite b => write b p
  | CUpdate o => update o p
  | CSet => set p
  | CGet => get p
  | CGetBaudRate => getBaudRate p
  | CFlush => flush p
  | CDrain => drain p
  end.

(** Calling an async method: a new promise is made and the method runs up
    to its first await. *)
Definition call (c : Call) (s : State) : pid * State :=
  let p := fresh (dom (proms s)) in
  (p, spawn p (start c p) (set_proms (<[p := Pending []]> (proms s)) s)).

(** What the caller's side can do between two turns. *)
Inductive Action :=
| ACall (c : Call)
| AEmitData (d : bytes)
| ACreatePort (path : string) (options : PortOptions)
| AReset
| AAlloc (b : bytes)                        (* Buffer.from / Buffer.alloc *)
| APoke (r : loc) (i : nat) (x : byte)      (* buffer[i] = x *)
| AChangeOptions (p : pid) (o : gmap string Prim)
                                            (* options.x = v, delete options.x *)
| ATurn.                                    (* let the loop run one step *)

Definition alloc (b : bytes) (s : State) : loc * State :=
  let r := fresh (dom (bufs s)) in (r, set_bufs (<[r := b]> (bufs s)) s).

(** [buffer[i] = x]; out of range, the assignment is dropped. *)
Definition poke (r : loc) (i : nat) (x : byte) (s : State) : State :=
  match bufs s !! r with
  | Some b => set_bufs (<[r := <[i := x]> b]> (bufs s)) s
  | None => s
  end.

(** The caller changes properties of the [options] object it gave to the
    call whose promise is [p]: afterwards the object holds [o].  The
    binding has no copy of the object before [open] makes one, so the
    continuation of that call sees the change. *)
Definition change_cont (p : pid) (o : gmap string Prim) (k : Cont) : Cont :=
  match k with
  | KOpen path (VObj _) q => if decide (q = p) then KOpen path (VObj o) q else k
  | KUpdate _ q => if decide (q = p) then KUpdate o q else k
  | _ => k
  end.

Definition change_task (p : pid) (o : gmap string Prim) (t : Task) : Task :=
  match t with
  | TResolve k => TResolve (change_cont p o k)
  | _ => t
  end.

Definition change_prom (p : pid) (o : gmap string Prim) (st : PromState) : PromState :=
  match st with
  | Pending ws => Pending (change_cont p o <$> ws)
  | _ => st
  end.

Definition change_options (p : pid) (o : gmap string Prim) (s : State) : State :=
  set_ticks (change_task p o <$> ticks s)
    (set_micro (change_cont p o <$> micro s)
      (set_proms (change_prom p o <$> proms s) s)).

Definition exec (a : Action) (s : State) : State :=
  match a with
  | ACall c => (call c s).2
  | AEmitData d => (emitData d s).2
  | ACreatePort path o => createPort path o s
  | AReset => reset s
  | AAlloc b => (alloc b s).2
  | APoke r i x => poke r i x s
  | AChangeOptions p o => change_options p o s
  | ATurn => loop_step s
  end.

Definition run (tr : list Action) (s : State) : State := foldl (λ s a, exec a s) s tr.

(** The instance counts as open when both fields say so: this is the test
    every method makes. *)
Definition is_open (i : Instance) : bool :=
  isOpen i && bool_decide (is_Some (port i)).


(** ** Sample states

    A device object as [createPort "/dev/ROBOT"] makes it, with the given
    flags, receive buffer and open options, and an instance that holds it
    open. *)
Definition robot (e r : bool) (d : bytes) (o : option (gmap string Prim)) : MockPort :=
  {| info := {| comName := "/dev/ROBOT";
                manufacturer := "The J5 Robotics Company";
                info_serialNumber := 1 |};
     data := d; echo := e; record := r; readyData := READY; openOpt := o |}.

Definition registered (dev : MockPort) : State :=
  set_heap {[ 0 := dev ]}
    (set_ports {[ "/dev/ROBOT" := 0 ]} (set_serialNumber 1 initial)).

Definition opened (e r : bool) (d : bytes) : State :=
  set_this (set_isOpen true (set_port (Some 0) new_instance))
    (registered (robot e r d (Some ∅))).

Definition with_buffer (r : loc) (b : bytes) (s : State) : State :=
  set_bufs (<[r := b]> (bufs s)) s.

Definition AB : bytes := String.list_byte_of_string "AB".

(** The open instance with a write of buffer 0 in flight (promise 7). *)
Definition writing : State :=
  set_proms {[ 7 := Pending [] ]}
    (set_this (set_writeOperation (Some 7) (this (opened false false [])))
      (with_buffer 0 AB (opened false false []))).

(** The open instance with a read parked on the empty receive buffer
    (promise 5, reading into buffer 0). *)
Definition parked_read : ReadK :=
  {| rk_buffer := 0; rk_offset := 0; rk_length := 4; rk_promise := 5 |}.

Definition waiting : State :=
  set_proms {[ 5 := Pending [] ]}
    (set_this (set_pendingRead (Some parked_read) (this (opened false false [])))
      (with_buffer 0 AB (opened false false []))).

(** ** Properties as the specification words them *)

(** read, as specified: on an open instance with bytes buffered and a
    non-zero [length], the count returned is between one and [length] and
    the receive buffer loses exactly that many bytes from its front. *)
Definition read_as_specified (s : State) (rk : ReadK) : Prop :=
  ∀ l dev, port (this s) = Some l → heap s !! l = Some dev →
    ∃ n s' dev',
      read_resumed rk s = (Ok (Return (VCount n)), s')
      ∧ 1 ≤ n ≤ rk_length rk
      ∧ heap s' !! l = Some dev'
      ∧ data dev' = drop n (data dev).

(** Two bytes buffered, and a caller who asks for two bytes but passes a
    one-byte Buffer (buffer 0). *)
Definition two_buffered : State :=
  with_buffer 0 (String.list_byte_of_string ".") (opened false false AB).

Definition read_two : ReadK :=
  {| rk_buffer := 0; rk_offset := 0; rk_length := 2; rk_promise := 5 |}.

(** The same request with a Buffer that has room (buffer 0, four bytes). *)
Definition two_buffered_roomy : State :=
  with_buffer 0 (String.list_byte_of_string "....") (opened false false AB).

Definition read_one : ReadK :=
  {| rk_buffer := 0; rk_offset := 1; rk_length := 1; rk_promise := 5 |}.

(** ** Independence from the registry

    A method body is registry-free when it neither reads nor writes the two
    module-level variables [ports] and [serialNumber]: run with other
    values in them, it does the same and leaves them as they are. *)
Definition set_registry (x : gmap string loc) (n : N) (s : State) : State :=
  set_ports x (set_serialNumber n s).

Definition registry_free {A} (m : M A) : Prop :=
  ∀ x n s, m (set_registry x n s) = ((m s).1, set_registry x n (m s).2).

Definition is_KOpen (k : Cont) : bool :=
  match k with KOpen _ _ _ => true | _ => false end.

(** ** Serial numbers handed out along a run

    The number a [createPort path] has just put into the device it
    registered, read back through the table. *)
Definition serial_at (path : string) (s : State) : option N :=
  l ← ports s !! path;
  p ← heap s !! l;
  Some (info_serialNumber (info p)).

Fixpoint assigned (tr : list Action) (s : State) : list N :=
  match tr with
  | [] => []
  | a :: tr' =>
      let s' := exec a s in
      match a with
      | ACreatePort path _ => option_list (serial_at path s')
      | _ => []
      end ++ assigned tr' s'
  end.

Definition is_createPort (a : Action) : bool :=
  match a with ACreatePort _ _ => true | _ => false end.

(** ** The open flag and the device reference *)

(** The two fields that say whether the instance is open. *)
Definition link (i : Instance) : bool * option loc := (isOpen i, port i).

Definition fields_agree (i : Instance) : Prop :=
  isOpen i = true ↔ is_Some (port i).

(** A method body that leaves both of them alone. *)
Definition keeps_link {A} (m : M A) : Prop :=
  ∀ s, link (this (m s).2) = link (this s).

(** createPort, then open with a plain options object, then three turns of
    the loop: the tick of the await, the switch to promise jobs, and the
    rest of [open]. *)
Definition options9600 : JsVal := VObj {[ "baudRate" := PNum 9600 ]}.

Definition open_attempt : list Action :=
  [ ACreatePort "/dev/exists" no_options;
    ACall (COpen "/dev/exists" options9600);
    ATurn; ATurn; ATurn ].

(** ** Deferred emissions *)

(** The tick callbacks that emit into the device [l]: the ready data of an
    [open] of [l] and the echo of a write. *)
Definition emission (l : loc) (t : Task) : bool :=
  match t with
  | TEcho _ => true
  | TReady l' => bool_decide (l' = l)
  | _ => false
  end.

(** What such a callback passes to [emitData]. *)
Definition payload (dev : MockPort) (t : Task) : bytes :=
  match t with
  | TEcho d => d
  | TReady _ => readyData dev
  | _ => []
  end.

(** The state [emitData d] leaves on an instance open on [l]. *)
Definition emitted (d : bytes) (l : loc) (dev : MockPort) (s : State) : State :=
  let s1 := set_heap (<[l := set_data (data dev ++ d) dev]> (heap s)) s in
  match pendingRead (this s) with
  | Some rk =>
      set_this (set_pendingRead None (this s)) (set_ticks (ticks s ++ [TWake rk]) s1)
  | None => s1
  end.

(** An echoing device held open, a write of "AB" allowed to finish, then
    [close] before the loop reaches the echo. *)
Definition echo_open : State := with_buffer 0 AB (opened true false []).

Definition write_then_close : list Action :=
  [ ACall (CWrite (ABuffer 0)); ATurn; ATurn; ATurn; ACall CClose;
    ATurn; ATurn ].

(** A write of buffer 0, and the caller overwriting the first byte of that
    buffer right after the call returned. *)
Definition XB : bytes := String.list_byte_of_string "XB".

Definition write_then_poke : list Action :=
  [ ACall (CWrite (ABuffer 0)); APoke 0 0 "X"%byte;
    ATurn; ATurn; ATurn; ATurn; ATurn ].

Definition write_undisturbed : list Action :=
  [ ACall (CWrite (ABuffer 0)); ATurn; ATurn; ATurn; ATurn; ATurn ].

Definition recording_open : State := with_buffer 0 AB (opened true true []).

(** The echoing device held open with two emissions queued: the ready data
    of the open and the echo of a write of "AB". *)
Definition emissions_queued : State :=
  set_ticks [TReady 0; TEcho AB] (opened true false []).

(** A read of four bytes on the open instance with nothing buffered, let
    run until it is parked, then [close]. *)
Definition read_then_close : list Action :=
  [ ACall (CRead 0 0 4); ATurn; ATurn; ATurn; ACall CClose ].


(** ** More sample states and runs *)

(** A device registered under another path, next to the one held open. *)
Definition two_devices : State :=
  createPort "/dev/other" no_options (opened false false AB).

(** [write] called on each of the buffers in turn, each write left to
    finish before the next is made. *)
Fixpoint write_each (rs : list loc) (p : pid) (s : State) : State :=
  match rs with
  | [] => s
  | r :: rs' => write_each rs' p (write_resumed r (write (ABuffer r) p s).2).2
  end.

(** The waiting instance of above, and a second read (promise 6) about to
    find the receive buffer empty as well. *)
Definition second_read : ReadK :=
  {| rk_buffer := 0; rk_offset := 0; rk_length := 1; rk_promise := 6 |}.

Definition two_reads : State :=
  set_proms (<[6 := Pending []]> (proms waiting)) waiting.

(** ** An instance whose flag is false *)

(** The error with which a call is refused at once on such an instance;
    [open] and [read] are not refused at the call (they fail later, after
    their await). *)
Definition refusal (c : Call) : option Error :=
  match c with
  | COpen _ _ | CRead _ _ _ => None
  | CClose => Some AlreadyClosed
  | CWrite (AOther _) => Some InvalidBuffer
  | CWrite (ABuffer _) => Some NotOpen
  | CUpdate (VObj o) =>
      Some (if typeof_number (prop o "baudRate") then NotOpen else InvalidBaudRate)
  | CUpdate (VPrim PNull) => Some JsTypeError
  | CUpdate (VPrim _) => Some InvalidOptions
  | CSet | CGet | CGetBaudRate | CFlush | CDrain => Some NotOpen
  end.

(** The error with which a continuation that depends on the open port
    fails when it resumes on such an instance. *)
Definition cancellation (k : Cont) : option Error :=
  match k with
  | KRead _ => Some ReadCanceled
  | KWrite _ _ => Some WriteCanceled
  | _ => None
  end.

(** ** Device objects over time *)

(** The part of a device that [createPort] fixes. *)
Definition static (dev : MockPort) : PortInfo * bool * bool * bytes :=
  (info dev, echo dev, record dev, readyData dev).

(** Every device object is still there afterwards, with the same fixed
    part. *)
Definition devices_kept (h h' : gmap loc MockPort) : Prop :=
  ∀ l dev, h !! l = Some dev → ∃ dev', h' !! l = Some dev' ∧ static dev' = static dev.

Definition keeps_devices {A} (m : M A) : Prop :=
  ∀ s, devices_kept (heap s) (heap (m s).2).

(** ** A pending read on an instance that has lost its device

    The waiting instance after an [open] of a path that is not
    registered has failed: line 119 has cleared [this.port], the flag
    and the pending read are as they were. *)
Definition lost_port : State :=
  (open_resumed "/dev/missing" options9600 waiting).2.

(** The specification's wording: whatever the instance, [close] settles
    a read that is parked on it with the PortClosed failure. *)
Definition close_as_specified (s : State) : Prop :=
  ∀ rk ws,
    pendingRead (this s) = Some rk →
    proms s !! rk_promise rk = Some (Pending ws) →
    proms (close s).2 !! rk_promise rk = Some (Rejected PortClosed).

(** ** The counter at the end of its exact range *)

(** The registry after 2^53 creations. *)
Definition saturated : State := set_serialNumber (2 ^ 53) initial.

(** The specification's wording: each serial number handed out is
    greater than all the ones handed out before. *)
Definition serials_as_specified (tr : list Action) (s : State) : Prop :=
  StronglySorted N.lt (assigned tr s).
(** ** Proof support *)

Ltac unfold_prims :=
  unfold guardOpen, settle, deref, store, nextTick, modThis, getThis, throw,
         lookupPort, lookupProm, copy, readBuf, openOpt_of_this,
         mbind, mret, M_bind, M_ret in *.

Ltac unfold_methods :=
  unfold emitData, open, open_resumed, close, read, read_resumed, write,
         write_resumed, update, update_resumed, set, set_resumed, get,
         get_resumed, getBaudRate, getBaudRate_resumed, flush, flush_resumed,
         drain, drain_written, drain_done in *.

Ltac msimpl := unfold_methods; unfold_prims; simpl in *.

(** ** write: the argument check comes first *)

(** C10: [write] tests its argument before it looks at the instance: on an
    instance that is not open, a non-Buffer argument is refused with the
    TypeError '"buffer" is not a Buffer', not with 'Port is not open';
    nothing is changed, and the promise handed back to the caller is
    rejected with that TypeError. *)
Theorem C10_write_checks_argument_first (s : State) (v : JsVal) (p : pid) :
  is_open (this s) = false →
  write (AOther v) p s = (Throw InvalidBuffer, s)
  ∧ is_TypeError InvalidBuffer = true
  ∧ InvalidBuffer ≠ NotOpen
  ∧ let r := call (CWrite (AOther v)) s in
    proms r.2 !! r.1 = Some (Rejected InvalidBuffer) ∧ this r.2 = this s.
Proof.
  intros _. split; [reflexivity |]. split; [reflexivity |].
  split; [discriminate |].
  unfold call, spawn, settle. simpl.
  rewrite lookup_insert_eq. simpl. by rewrite lookup_insert_eq.
Qed.

Lemma C10_witness :
  is_open (this initial) = false
  ∧ write (AOther (VPrim (PStr "hello"))) 0 initial = (Throw InvalidBuffer, initial).
Proof.
  split; [reflexivity |].
  apply (C10_write_checks_argument_first initial (VPrim (PStr "hello")) 0).
  reflexivity.
Defined.

(** ** close and the parked read *)

(** [settle] on a promise that is in the store leaves it settled. *)
Lemma settle_lookup (q : pid) (o st : PromState) (s : State) :
  proms s !! q = Some st →
  proms (settle q o s).2 !! q =
    Some (match st with Pending _ => o | _ => st end).
Proof.
  intros H. unfold settle. rewrite H.
  destruct st; simpl; [apply lookup_insert_eq | exact H | exact H].
Qed.




(** The same through the loop: [open] of the missing path is called on
    the waiting instance and left to fail, then [close] is called.  Both
    promises are rejected and the parked read (promise 5) is still
    pending. *)
Example parked_read_outlives_failed_close :
  let s := run [ ACall (COpen "/dev/missing" options9600); ATurn; ATurn; ATurn;
                 ACall CClose ] waiting in
  proms s !! 6 = Some (Rejected NotFound)
  ∧ proms s !! 7 = Some (Rejected AlreadyClosed)
  ∧ proms s !! 5 = Some (Pending [])
  ∧ idle s.
Proof. repeat split; vm_compute; reflexivity. Qed.

(** ** read *)

Lemma take_min {A} (k : nat) (l : list A) : take k l = take (k `min` length l) l.
Proof.
  destruct (Nat.le_gt_cases k (length l)) as [H | H].
  - by rewrite Nat.min_l.
  - rewrite Nat.min_r by lia. rewrite !take_ge; [done | lia | lia].
Qed.

Lemma drop_min {A} (k : nat) (l : list A) : drop k l = drop (k `min` length l) l.
Proof.
  destruct (Nat.le_gt_cases k (length l)) as [H | H].
  - by rewrite Nat.min_l.
  - rewrite Nat.min_r by lia. rewrite !drop_ge; [done | lia | lia].
Qed.

(** C2, as amended: on an open instance with bytes buffered, a [length] of
    at least one and a caller's Buffer with room for the bytes behind
    [offset], [read] hands out the first [min length available] bytes: that
    count is returned, it is between one and [length], the bytes are
    written into the caller's Buffer at [offset], and the receive buffer
    keeps exactly the bytes behind them. *)
Theorem C2_read_takes_prefix
    (s : State) (l : loc) (dev : MockPort) (rk : ReadK) (b : bytes) :
  isOpen (this s) = true →
  port (this s) = Some l →
  heap s !! l = Some dev →
  bufs s !! rk_buffer rk = Some b →
  data dev ≠ [] →
  rk_length rk ≠ 0 →
  rk_offset rk + rk_length rk `min` length (data dev) ≤ length b →
  let n := rk_length rk `min` length (data dev) in
  ∃ s', read_resumed rk s = (Ok (Return (VCount n)), s')
    ∧ 1 ≤ n ≤ rk_length rk
    ∧ heap s' !! l = Some (set_data (drop n (data dev)) dev)
    ∧ length (drop n (data dev)) = length (data dev) - n
    ∧ data dev = take n (data dev) ++ drop n (data dev)
    ∧ bufs s' !! rk_buffer rk =
        Some (take (rk_offset rk) b ++ take n (data dev)
              ++ drop (rk_offset rk + n) b)
    ∧ this s' = this s.
Proof.
  intros Hopen Hport Hdev Hbuf Hdata Hlen Hroom n.
  assert (Hpos : 0 < length (data dev)) by (destruct (data dev); [done | simpl; lia]).
  assert (Hcount : length (take (rk_length rk) (data dev)) `min` (length b - rk_offset rk) = n).
  { rewrite length_take. subst n. lia. }
  msimpl. rewrite Hport, Hopen. simpl. rewrite Hdev. simpl.
  rewrite bool_decide_eq_false_2 by lia.
  rewrite Hbuf. simpl. rewrite Hcount.
  eexists. split; [reflexivity |]. simpl.
  split; [subst n; lia |].
  split; [rewrite lookup_insert_eq; by rewrite (drop_min (rk_length rk)) |].
  split; [apply length_drop |].
  split; [by rewrite take_drop |].
  split; [| reflexivity].
  rewrite lookup_insert_eq. do 3 f_equal.
  rewrite (take_min (rk_length rk)). fold n. by rewrite take_take, Nat.min_id.
Qed.

Lemma C2_witness :
  ∃ s', read_resumed read_one two_buffered_roomy = (Ok (Return (VCount 1)), s')
    ∧ heap s' !! 0 = Some (robot false false (String.list_byte_of_string "B") (Some ∅))
    ∧ bufs s' !! 0 = Some (String.list_byte_of_string ".A..").
Proof.
  destruct (C2_read_takes_prefix two_buffered_roomy 0 (robot false false AB (Some ∅))
              read_one (String.list_byte_of_string "....")) as (s' & H1 & _ & H2 & _ & _ & H3 & _);
    [reflexivity | reflexivity | reflexivity | reflexivity | discriminate
    | discriminate | simpl; lia |].
  exists s'. split; [exact H1 |]. split; [exact H2 | exact H3].
Defined.

(** C2 as worded fails when the caller's Buffer is shorter than the bytes
    asked for: asked for two bytes into a one-byte Buffer, [read] returns 1
    and yet drops both bytes from the receive buffer. *)
Lemma C2_counterexample :
  is_open (this two_buffered) = true
  ∧ (∃ dev, heap two_buffered !! 0 = Some dev ∧ data dev ≠ [])
  ∧ rk_length read_two ≠ 0
  ∧ (∃ s', read_resumed read_two two_buffered = (Ok (Return (VCount 1)), s')
           ∧ (data <$> heap s' !! 0) = Some [])
  ∧ ¬ read_as_specified two_buffered read_two.
Proof.
  split; [reflexivity |].
  split; [eexists; split; [reflexivity | discriminate] |].
  split; [discriminate |].
  split; [eexists; split; reflexivity |].
  intros H.
  destruct (H 0 (robot false false AB (Some ∅)) eq_refl eq_refl)
    as (n & s' & dev' & Hr & Hn & Hh & Hd).
  vm_compute in Hr. inversion Hr; subst n s'; clear Hr.
  vm_compute in Hh. inversion Hh; subst dev'; clear Hh.
  vm_compute in Hd. discriminate Hd.
Qed.

(** ** Which code touches the registry *)

Section RegistryFree.
Context {A B : Type}.

Lemma rf_ret (a : A) : registry_free (mret a).
Proof. done. Qed.

Lemma rf_throw (e : Error) : registry_free (@throw A e).
Proof. done. Qed.

Lemma rf_bind (m : M A) (k : A → M B) :
  registry_free m → (∀ a, registry_free (k a)) → registry_free (m ≫= k).
Proof.
  intros Hm Hk x n s. unfold mbind, M_bind. rewrite Hm.
  destruct (m s) as [[a | e] s']; simpl; [apply Hk | done].
Qed.
End RegistryFree.

Lemma rf_getThis : registry_free getThis.
Proof. done. Qed.

Lemma rf_modThis f : registry_free (modThis f).
Proof. done. Qed.

Lemma rf_deref l : registry_free (deref l).
Proof. intros x n s. unfold deref. simpl. by destruct (heap s !! l). Qed.

Lemma rf_store l p : registry_free (store l p).
Proof. done. Qed.

Lemma rf_nextTick t : registry_free (nextTick t).
Proof. done. Qed.

Lemma rf_lookupProm q : registry_free (lookupProm q).
Proof. done. Qed.

Lemma rf_settle q o : registry_free (settle q o).
Proof.
  intros x n s. unfold settle. simpl.
  destruct (proms s !! q) as [[] |]; done.
Qed.

Lemma rf_readBuf r : registry_free (readBuf r).
Proof. intros x n s. unfold readBuf. simpl. by destruct (bufs s !! r). Qed.

Lemma rf_copy src r off : registry_free (copy src r off).
Proof. intros x n s. unfold copy. simpl. by destruct (bufs s !! r). Qed.

Create HintDb rf.
#[local] Hint Resolve rf_getThis rf_modThis rf_deref rf_store rf_nextTick
  rf_lookupProm rf_settle rf_readBuf rf_copy : rf.

(** Walk a method body: split binds, case on every test. *)
Ltac rf_walk :=
  repeat first
    [ apply rf_ret
    | apply rf_throw
    | solve [auto with rf]
    | apply rf_bind; [| intros]
    | match goal with
      | |- registry_free (match ?x with _ => _ end) => destruct x
      | |- registry_free (if ?x then _ else _) => destruct x
      | |- registry_free (let '(_, _) := ?x in _) => destruct x
      end ].

Lemma rf_guardOpen e : registry_free (guardOpen e).
Proof. unfold guardOpen. rf_walk. Qed.

Lemma rf_openOpt_of_this : registry_free openOpt_of_this.
Proof. unfold openOpt_of_this. rf_walk. Qed.

#[local] Hint Resolve rf_guardOpen rf_openOpt_of_this : rf.

Lemma rf_emitData d : registry_free (emitData d).
Proof. unfold emitData. rf_walk. Qed.

#[local] Hint Resolve rf_emitData : rf.

(** Every method that can start a segment, [open] included: before its
    await [open] only checks its arguments. *)
Lemma rf_start c p : registry_free (start c p).
Proof. destruct c; simpl; unfold_methods; rf_walk. Qed.

(** Every continuation but the one of [open], which looks the path up. *)
Lemma rf_resume k : is_KOpen k = false → registry_free (resume k).
Proof. destruct k; [done | ..]; intros _; simpl; unfold_methods; rf_walk. Qed.

Lemma reset_is_registry_update s : reset s = set_registry ∅ (serialNumber s) s.
Proof. by destruct s. Qed.

Lemma rf_serialNumber {A} (m : M A) s :
  registry_free m → serialNumber (m s).2 = serialNumber s.
Proof.
  intros Hm. specialize (Hm (ports s) (serialNumber s) s).
  replace (set_registry (ports s) (serialNumber s) s) with s in Hm by (by destruct s).
  apply (f_equal snd) in Hm. simpl in Hm. by rewrite Hm.
Qed.

Lemma rf_reset {A} (m : M A) s :
  registry_free m → m (reset s) = ((m s).1, reset (m s).2).
Proof.
  intros Hm. rewrite !reset_is_registry_update, (rf_serialNumber m s Hm). apply Hm.
Qed.

(** ** reset *)

(** C6, as amended: [reset] empties the table and nothing else; the
    instance keeps its device object and its [isOpen] flag.  Every method
    called after the reset, and every continuation other than that of an
    [open], runs exactly as it would have run without the reset. *)
Theorem C6_reset_does_not_reach_open_instances
    (s : State) (c : Call) (k : Cont) (p : pid) (d : bytes) :
  is_KOpen k = false →
  ports (reset s) = ∅
  ∧ this (reset s) = this s
  ∧ heap (reset s) = heap s
  ∧ start c p (reset s) = ((start c p s).1, reset (start c p s).2)
  ∧ resume k (reset s) = ((resume k s).1, reset (resume k s).2)
  ∧ emitData d (reset s) = ((emitData d s).1, reset (emitData d s).2).
Proof.
  intros Hk. repeat split.
  - apply rf_reset, rf_start.
  - by apply rf_reset, rf_resume.
  - apply rf_reset, rf_emitData.
Qed.

Lemma C6_witness :
  resume (KFlush 1) (reset (opened false false AB)) =
    ((resume (KFlush 1) (opened false false AB)).1,
     reset (resume (KFlush 1) (opened false false AB)).2).
Proof.
  apply (C6_reset_does_not_reach_open_instances
           (opened false false AB) CFlush (KFlush 1) 1 []).
  reflexivity.
Defined.

(** C6 as worded fails: after [reset] the instance that was open still
    accepts emitData, write, flush and drain, and still reads the bytes of
    the device that is no longer in the table. *)
Lemma C6_counterexample :
  let s := reset two_buffered_roomy in
  is_open (this two_buffered_roomy) = true
  ∧ ports s = ∅
  ∧ (emitData AB s).1 = Ok tt
  ∧ (read_resumed read_two s).1 = Ok (Return (VCount 2))
  ∧ (write (ABuffer 0) 1 s).1 = Ok (AwaitTick (KWrite 0 1))
  ∧ (write_resumed 0 s).1 = Ok (Return VUnit)
  ∧ (flush 1 s).1 = Ok (AwaitTick (KFlush 1))
  ∧ (flush_resumed s).1 = Ok (Return VUnit)
  ∧ (drain 1 s).1 = Ok (AwaitPromise None (KDrainWritten None 1)).
Proof. repeat split. Qed.

(** ** The serial-number counter *)

Lemma serialNumber_settle q o s : serialNumber (settle q o s).2 = serialNumber s.
Proof. apply rf_serialNumber, rf_settle. Qed.

Lemma serialNumber_open_resumed path options s :
  serialNumber (open_resumed path options s).2 = serialNumber s.
Proof. msimpl. repeat case_match; simplify_eq; reflexivity. Qed.

Lemma serialNumber_resume k s : serialNumber (resume k s).2 = serialNumber s.
Proof.
  destruct (is_KOpen k) eqn:Hk.
  - destruct k; try discriminate. apply serialNumber_open_resumed.
  - by apply rf_serialNumber, rf_resume.
Qed.

Lemma serialNumber_spawn p m s :
  (∀ s0, serialNumber (m s0).2 = serialNumber s0) →
  serialNumber (spawn p m s) = serialNumber s.
Proof.
  intros Hm. unfold spawn. specialize (Hm s).
  destruct (m s) as [[[v | k | w k |] | e] s']; simpl in *;
    rewrite ?serialNumber_settle; try done.
  destruct w as [q |]; [| done]. by destruct (proms s' !! q) as [[] |].
Qed.

Lemma serialNumber_run_callback m s :
  (∀ s0, serialNumber (m s0).2 = serialNumber s0) →
  serialNumber (run_callback m s) = serialNumber s.
Proof.
  intros Hm. unfold run_callback. specialize (Hm s).
  by destruct (m s) as [[[] | e] s'].
Qed.

Lemma serialNumber_run_tick t s : serialNumber (run_tick t s) = serialNumber s.
Proof.
  destruct t; unfold run_tick; [done | | |].
  - apply serialNumber_run_callback. intros s0. apply rf_serialNumber. rf_walk.
  - apply serialNumber_run_callback. intros s0. apply rf_serialNumber. rf_walk.
  - apply serialNumber_spawn. intros s0. apply rf_serialNumber. unfold read. rf_walk.
Qed.

Lemma serialNumber_loop_step s : serialNumber (loop_step s) = serialNumber s.
Proof.
  unfold loop_step. destruct (in_micro s).
  - destruct (micro s); [done |]. unfold run_micro.
    rewrite serialNumber_spawn; [done | apply serialNumber_resume].
  - destruct (ticks s); [by destruct (micro s) |]. by rewrite serialNumber_run_tick.
Qed.

(** Up to 2^53 an integer is its own double, so the increment is exact
    below 2^53. *)
Lemma to_double_exact m : (m ≤ 2 ^ 53)%N → to_double m = m.
Proof.
  intros Hm. unfold to_double. destruct (m <? 2 ^ 53)%N eqn:Hlt; [done |].
  apply N.ltb_ge in Hlt. assert (m = (2 ^ 53)%N) as -> by lia.
  vm_compute. reflexivity.
Qed.

Lemma js_incr_exact n : (n < 2 ^ 53)%N → js_incr n = (n + 1)%N.
Proof. intros Hn. unfold js_incr. apply to_double_exact. lia. Qed.

(** At 2^53 the increment leaves the counter where it is. *)
Lemma js_incr_saturated : js_incr (2 ^ 53) = (2 ^ 53)%N.
Proof. vm_compute. reflexivity. Qed.

(** Only [createPort] moves the counter: it increments it. *)
Lemma serialNumber_exec a s :
  serialNumber (exec a s) =
    if is_createPort a then js_incr (serialNumber s) else serialNumber s.
Proof.
  destruct a; simpl; try done.
  - unfold call. simpl. rewrite serialNumber_spawn; [done |].
    intros s0. apply rf_serialNumber, rf_start.
  - apply rf_serialNumber, rf_emitData.
  - unfold poke. by destruct (bufs s !! r).
  - apply serialNumber_loop_step.
Qed.

(** The device just registered carries the new value of the counter. *)
Lemma serial_at_createPort path o s :
  serial_at path (createPort path o s) = Some (js_incr (serialNumber s)).
Proof.
  unfold serial_at, createPort. simpl.
  rewrite lookup_insert_eq. simpl. by rewrite lookup_insert_eq.
Qed.

#[local] Arguments createPort : simpl never.
#[local] Arguments serial_at : simpl never.
#[local] Arguments js_incr : simpl never.

Lemma creations_cons a tr :
  length (filter (λ a, is_createPort a = true) (a :: tr)) =
    ((if is_createPort a then 1 else 0)
     + length (filter (λ a, is_createPort a = true) tr))%nat.
Proof.
  rewrite filter_cons.
  destruct (decide (is_createPort a = true)) as [H | H];
    [| apply not_true_is_false in H]; rewrite H; reflexivity.
Qed.

(** While the counter has room for the creations of the run, each number
    handed out is above the counter the run started from. *)
Lemma assigned_above tr : ∀ s,
  (serialNumber s + N.of_nat (length (filter (λ a, is_createPort a = true) tr)) ≤ 2 ^ 53)%N →
  Forall (λ n, (serialNumber s < n)%N) (assigned tr s).
Proof.
  induction tr as [| a tr IH]; intros s Hroom; [constructor |].
  rewrite creations_cons in Hroom.
  pose proof (serialNumber_exec a s) as Hc.
  change (assigned (a :: tr) s) with
    (match a with
     | ACreatePort path _ => option_list (serial_at path (exec a s))
     | _ => []
     end ++ assigned tr (exec a s)).
  apply Forall_app. split.
  - destruct a; try constructor. unfold exec. rewrite serial_at_createPort.
    simpl in Hroom. rewrite js_incr_exact by lia.
    constructor; [lia | constructor].
  - eapply Forall_impl; [apply IH |].
    + rewrite Hc. destruct (is_createPort a); [rewrite js_incr_exact |]; lia.
    + intros n Hn. simpl in Hn. rewrite Hc in Hn.
      destruct (is_createPort a); [rewrite js_incr_exact in Hn |]; lia.
Qed.

(** C9 (amended): along every run of calls, loop turns, resets and
    creations that leaves the counter at or below 2^53, where the
    increment is exact, each [createPort] hands out a number above the
    counter it found, the numbers handed out are strictly increasing in
    call order (hence pairwise distinct), every [createPort] hands one
    out, and [reset] leaves the counter alone. *)
Theorem C9_serial_numbers_strictly_increase (tr : list Action) (s : State) :
  (serialNumber s + N.of_nat (length (filter (λ a, is_createPort a = true) tr)) ≤ 2 ^ 53)%N →
  StronglySorted N.lt (assigned tr s)
  ∧ Forall (λ n, (serialNumber s < n)%N) (assigned tr s)
  ∧ NoDup (assigned tr s)
  ∧ length (assigned tr s) = length (filter (λ a, is_createPort a = true) tr)
  ∧ serialNumber (reset s) = serialNumber s.
Proof.
  intros Hroom.
  assert (Hsorted : ∀ tr s,
    (serialNumber s + N.of_nat (length (filter (λ a, is_createPort a = true) tr)) ≤ 2 ^ 53)%N →
    StronglySorted N.lt (assigned tr s)).
  { clear. induction tr as [| a tr IH]; intros s Hroom; [constructor |].
    rewrite creations_cons in Hroom.
    pose proof (serialNumber_exec a s) as Hc.
    assert (Hnext : (serialNumber (exec a s)
                     + N.of_nat (length (filter (λ a, is_createPort a = true) tr)) ≤ 2 ^ 53)%N).
    { rewrite Hc. destruct (is_createPort a); [rewrite js_incr_exact |]; lia. }
    destruct a; simpl; try (apply IH; exact Hnext).
    unfold exec. rewrite serial_at_createPort. simpl.
    simpl in Hroom, Hc. unfold exec in Hc, Hnext.
    constructor; [apply IH; exact Hnext |].
    eapply Forall_impl; [apply assigned_above; exact Hnext |].
    intros n Hn. exact Hn. }
  repeat split.
  - apply Hsorted, Hroom.
  - apply assigned_above, Hroom.
  - specialize (Hsorted tr s Hroom). clear -Hsorted.
    induction Hsorted as [| n l _ IH Hall]; constructor; [| exact IH].
    intros Hin. rewrite Forall_forall in Hall. specialize (Hall n Hin). lia.
  - clear. revert s. induction tr as [| a tr IH]; intros s; [done |].
    rewrite creations_cons.
    change (assigned (a :: tr) s) with
      (match a with
       | ACreatePort path _ => option_list (serial_at path (exec a s))
       | _ => []
       end ++ assigned tr (exec a s)).
    rewrite length_app, IH. destruct a; simpl; try done.
    unfold exec. rewrite serial_at_createPort. reflexivity.
Qed.

Lemma C9_witness :
  let tr := [ ACreatePort "/dev/a" no_options; AReset;
              ACreatePort "/dev/a" no_options; ACreatePort "/dev/b" no_options ] in
  StronglySorted N.lt (assigned tr initial)
  ∧ Forall (λ n, (serialNumber initial < n)%N) (assigned tr initial)
  ∧ NoDup (assigned tr initial)
  ∧ length (assigned tr initial) = length (filter (λ a, is_createPort a = true) tr)
  ∧ serialNumber (reset initial) = serialNumber initial.
Proof.
  apply (C9_serial_numbers_strictly_increase
           [ ACreatePort "/dev/a" no_options; AReset;
             ACreatePort "/dev/a" no_options; ACreatePort "/dev/b" no_options ] initial).
  vm_compute. discriminate.
Defined.

(** C9 as worded fails: with the counter at 2^53
    (where 2^53 creations leave it) two creations in a row hand out the
    same number, so the second is not greater than the first. *)
Lemma C9_counterexample :
  assigned [ ACreatePort "/dev/a" no_options; ACreatePort "/dev/b" no_options ] saturated
    = [2 ^ 53; 2 ^ 53]%N
  ∧ ¬ serials_as_specified
        [ ACreatePort "/dev/a" no_options; ACreatePort "/dev/b" no_options ] saturated.
Proof.
  assert (Heq : assigned [ ACreatePort "/dev/a" no_options; ACreatePort "/dev/b" no_options ]
                  saturated = [2 ^ 53; 2 ^ 53]%N) by (vm_compute; reflexivity).
  split; [exact Heq |].
  unfold serials_as_specified. rewrite Heq. intros H.
  inversion H as [| ? ? _ Hall]. inversion Hall as [| ? ? Hlt _]. lia.
Qed.

Example serials_across_reset :
  assigned [ ACreatePort "/dev/a" no_options; AReset;
             ACreatePort "/dev/a" no_options; ACreatePort "/dev/b" no_options ]
           initial = [1; 2; 3]%N.
Proof. reflexivity. Qed.

(** ** Who writes [isOpen] and [port] *)

Section KeepsLink.
Context {A B : Type}.

Lemma kl_ret (a : A) : keeps_link (mret a).
Proof. by intros s. Qed.

Lemma kl_throw (e : Error) : keeps_link (@throw A e).
Proof. by intros s. Qed.

Lemma kl_bind (m : M A) (k : A → M B) :
  keeps_link m → (∀ a, keeps_link (k a)) → keeps_link (m ≫= k).
Proof.
  intros Hm Hk s. unfold mbind, M_bind. specialize (Hm s).
  destruct (m s) as [[a | e] s']; simpl in *; [by rewrite Hk | done].
Qed.
End KeepsLink.

Lemma kl_modThis f : (∀ i, link (f i) = link i) → keeps_link (modThis f).
Proof. intros Hf s. apply Hf. Qed.

Lemma kl_getThis : keeps_link getThis.
Proof. by intros s. Qed.

Lemma kl_deref l : keeps_link (deref l).
Proof. intros s. unfold deref. by destruct (heap s !! l). Qed.

Lemma kl_store l p : keeps_link (store l p).
Proof. by intros s. Qed.

Lemma kl_nextTick t : keeps_link (nextTick t).
Proof. by intros s. Qed.

Lemma kl_lookupProm q : keeps_link (lookupProm q).
Proof. by intros s. Qed.

Lemma this_settle q o s : this (settle q o s).2 = this s.
Proof. unfold settle. by destruct (proms s !! q) as [[] |]. Qed.

Lemma kl_settle q o : keeps_link (settle q o).
Proof. intros s. by rewrite this_settle. Qed.

Lemma kl_readBuf r : keeps_link (readBuf r).
Proof. intros s. unfold readBuf. by destruct (bufs s !! r). Qed.

Lemma kl_copy src r off : keeps_link (copy src r off).
Proof. intros s. unfold copy. by destruct (bufs s !! r). Qed.

Create HintDb kl.
#[local] Hint Resolve kl_getThis kl_deref kl_store kl_nextTick kl_lookupProm
  kl_settle kl_readBuf kl_copy : kl.

Ltac kl_walk :=
  repeat first
    [ apply kl_ret
    | apply kl_throw
    | solve [auto with kl]
    | apply kl_modThis; reflexivity
    | apply kl_bind; [| intros]
    | match goal with
      | |- keeps_link (match ?x with _ => _ end) => destruct x
      | |- keeps_link (if ?x then _ else _) => destruct x
      end ].

Lemma kl_guardOpen e : keeps_link (guardOpen e).
Proof. unfold guardOpen. kl_walk. Qed.

Lemma kl_openOpt_of_this : keeps_link openOpt_of_this.
Proof. unfold openOpt_of_this. kl_walk. Qed.

#[local] Hint Resolve kl_guardOpen kl_openOpt_of_this : kl.

Lemma kl_emitData d : keeps_link (emitData d).
Proof. unfold emitData. kl_walk. Qed.

(** Every method other than [close], up to its first await. *)
Lemma kl_start c p : c ≠ CClose → keeps_link (start c p).
Proof. destruct c; intros Hc; try done; simpl; unfold_methods; kl_walk. Qed.

(** Every continuation other than the one of [open]. *)
Lemma kl_resume k : is_KOpen k = false → keeps_link (resume k).
Proof. destruct k; intros Hk; try done; simpl; unfold_methods; kl_walk. Qed.

(** [close] either throws and leaves the two fields alone, or sets the flag
    to false and the reference to null. *)
Lemma link_close s :
  link (this (close s).2) = link (this s)
  ∨ link (this (close s).2) = (false, None).
Proof.
  unfold close, guardOpen, deref, store, modThis, getThis, throw,
    mbind, mret, M_bind, M_ret. simpl.
  destruct (port (this s)) as [l |]; simpl; [| by left].
  destruct (isOpen (this s)); simpl; [| by left].
  destruct (heap s !! l) as [p |]; simpl; [| by left].
  right. destruct (pendingRead (this s)) as [rk |]; simpl; [| done].
  match goal with
  | |- context [settle ?q ?o ?s0] =>
      pose proof (this_settle q o s0) as Hq;
      destruct (settle q o s0) as [[[] | e] s']
  end; simpl in *; by rewrite Hq.
Qed.

(** The one assignment [this.isOpen = true] sits behind the test
    [if (!this.isOpen || !this.port) throw ...]: on an instance whose flag
    is false the rest of [open] always throws; it writes neither the flag
    nor any device object. *)
Lemma open_resumed_on_closed path options s :
  isOpen (this s) = false →
  ∃ e s', open_resumed path options s = (Throw e, s')
    ∧ isOpen (this s') = false
    ∧ heap s' = heap s.
Proof.
  intros Hs. unfold open_resumed. unfold_prims. simpl.
  destruct (ports s !! path) as [l |]; simpl; [| by eauto].
  destruct (heap s !! l) as [p |]; simpl; [| by eauto].
  destruct (lock_held p); simpl; [by eauto |].
  rewrite Hs. simpl. by eauto.
Qed.

Lemma closed_start c p s :
  isOpen (this s) = false → isOpen (this (start c p s).2) = false.
Proof.
  intros Hs.
  assert (c = CClose ∨ c ≠ CClose) as [-> | Hc]
    by (destruct c; (by left) || (by right)).
  - simpl. destruct (link_close s) as [H | H];
      apply (f_equal fst) in H; simpl in H; congruence.
  - pose proof (kl_start c p Hc s) as H.
    apply (f_equal fst) in H; simpl in H; congruence.
Qed.

Lemma closed_resume k s :
  isOpen (this s) = false → isOpen (this (resume k s).2) = false.
Proof.
  intros Hs. destruct (is_KOpen k) eqn:Hk.
  - destruct k; try discriminate. simpl.
    by destruct (open_resumed_on_closed path options s Hs) as (e & s' & -> & H & _).
  - pose proof (kl_resume k Hk s) as H.
    apply (f_equal fst) in H; simpl in H; congruence.
Qed.

Lemma this_spawn p m s : this (spawn p m s) = this (m s).2.
Proof.
  unfold spawn. destruct (m s) as [[[v | k | w k |] | e] s']; simpl;
    rewrite ?this_settle; try done.
  destruct w as [q |]; [| done]. by destruct (proms s' !! q) as [[] |].
Qed.

Lemma this_run_callback m s : this (run_callback m s) = this (m s).2.
Proof. unfold run_callback. by destruct (m s) as [[[] | e] s']. Qed.

Lemma closed_loop_step s :
  isOpen (this s) = false → isOpen (this (loop_step s)) = false.
Proof.
  intros Hs. unfold loop_step. destruct (in_micro s).
  - destruct (micro s) as [| k ks]; [done |].
    unfold run_micro. rewrite this_spawn. by apply closed_resume.
  - destruct (ticks s) as [| t ts]; [by destruct (micro s) |].
    destruct t; unfold run_tick; [done | | |].
    + rewrite this_run_callback. unfold_prims. simpl. by rewrite Hs.
    + rewrite this_run_callback. unfold_prims. simpl. by rewrite Hs.
    + by rewrite this_spawn.
Qed.

Lemma closed_exec a s :
  isOpen (this s) = false → isOpen (this (exec a s)) = false.
Proof.
  intros Hs. destruct a; simpl; try done.
  - unfold call. simpl. rewrite this_spawn. by apply closed_start.
  - pose proof (kl_emitData d s) as H.
    apply (f_equal fst) in H; simpl in H; congruence.
  - unfold poke. by destruct (bufs s !! r).
  - by apply closed_loop_step.
Qed.

(** No call, no turn of the loop and no registry operation ever sets
    [isOpen]: an instance that starts closed stays closed, whatever is
    done. *)
Lemma never_open tr : ∀ s,
  isOpen (this s) = false → isOpen (this (run tr s)) = false.
Proof.
  unfold run. induction tr as [| a tr IH]; intros s Hs; [done |].
  simpl. by apply IH, closed_exec.
Qed.

(** C1, on the code: a device is registered, not locked, and a freshly
    constructed instance opens it with a non-empty path and a plain options
    object.  The returned promise is rejected with 'Open: binding is
    already open', [isOpen] stays false and the device's [openOpt] stays
    null. *)
Theorem C1_open_of_registered_device_is_rejected :
  let s0 := createPort "/dev/exists" no_options initial in
  let s := run open_attempt initial in
  (∃ dev, ports s0 !! "/dev/exists" = Some 0 ∧ heap s0 !! 0 = Some dev
          ∧ lock_held dev = false)
  ∧ typeof_object options9600 = true
  ∧ proms s !! 0 = Some (Rejected AlreadyOpen)
  ∧ isOpen (this s) = false
  ∧ (openOpt <$> heap s !! 0) = Some None
  ∧ ticks s = [] ∧ micro s = [].
Proof.
  split; [eexists; repeat split |].
  vm_compute. repeat split.
Qed.

(** ** The two fields of the instance *)

(** X20: Every method and continuation other than the rest of [open] keeps the
    two fields in step. *)
Lemma fields_agree_kept s :
  fields_agree (this s) →
  (∀ c p, fields_agree (this (start c p s).2))
  ∧ (∀ k, is_KOpen k = false → fields_agree (this (resume k s).2))
  ∧ (∀ d, fields_agree (this (emitData d s).2)).
Proof.
  intros Hs.
  assert (Hlink : ∀ i, link i = link (this s) → fields_agree i).
  { intros i Hi. unfold fields_agree, link in *.
    injection Hi as -> ->. exact Hs. }
  split; [| split].
  - intros c p.
    assert (c = CClose ∨ c ≠ CClose) as [-> | Hc]
      by (destruct c; (by left) || (by right)).
    + simpl. destruct (link_close s) as [H | H]; [by apply Hlink |].
      unfold fields_agree, link in *. injection H as -> ->.
      split; [done | by intros []].
    + by apply Hlink, kl_start.
  - intros k Hk. by apply Hlink, kl_resume.
  - intros d. apply Hlink, kl_emitData.
Qed.

(** A successful [open] leaves both set. *)
Lemma open_resumed_ok_agree path options s v s' :
  open_resumed path options s = (Ok v, s') →
  isOpen (this s') = true ∧ is_Some (port (this s')).
Proof.
  unfold open_resumed. unfold_prims. simpl.
  destruct (ports s !! path) as [l |]; simpl; [| done].
  destruct (heap s !! l) as [p |]; simpl; [| done].
  destruct (lock_held p); simpl; [done |].
  destruct (isOpen (this s)); simpl; [| done].
  destruct (echo p); simpl; intros [= <- <-]; simpl; eauto.
Qed.

(** C7, on the code: [open] assigns [this.port] before any of its checks,
    so an [open] that throws leaves the reference set while the flag is
    false (first the run of C1 from the initial state, then an open of a
    device that is locked), and an [open] of an unknown path on an open
    instance clears the reference while the flag stays true. *)
Theorem C7_failed_open_breaks_agreement :
  fields_agree (this initial)
  ∧ (let s := run open_attempt initial in
     port (this s) = Some 0 ∧ isOpen (this s) = false
     ∧ ¬ fields_agree (this s))
  ∧ (let r := open_resumed "/dev/ROBOT" options9600
                (registered (robot false false [] (Some {[ "lock" := PBool true ]}))) in
     r.1 = Throw LockConflict
     ∧ port (this r.2) = Some 0 ∧ isOpen (this r.2) = false
     ∧ ¬ fields_agree (this r.2))
  ∧ (let r := open_resumed "/dev/missing" options9600 (opened false false []) in
     fields_agree (this (opened false false []))
     ∧ r.1 = Throw NotFound
     ∧ port (this r.2) = None ∧ isOpen (this r.2) = true
     ∧ ¬ fields_agree (this r.2)).
Proof.
  split; [| split; [| split]].
  - split; [done | by intros []].
  - vm_compute. repeat split. intros [_ H]. by specialize (H (ex_intro _ 0 eq_refl)).
  - vm_compute. repeat split. intros [_ H]. by specialize (H (ex_intro _ 0 eq_refl)).
  - split; [split; [by eexists | done] |].
    vm_compute. repeat split. intros [H _]. by destruct (H eq_refl).
Qed.

(** ** emitData and the deferred emissions *)

Lemma emitData_open d s l dev :
  isOpen (this s) = true →
  port (this s) = Some l →
  heap s !! l = Some dev →
  emitData d s = (Ok tt, emitted d l dev s).
Proof.
  intros Hopen Hport Hdev. unfold emitData, emitted. unfold_prims. simpl.
  rewrite Hport, Hopen. simpl. rewrite Hdev. simpl.
  by destruct (pendingRead (this s)).
Qed.

Lemma emitted_facts d l dev s :
  heap (emitted d l dev s) !! l = Some (set_data (data dev ++ d) dev)
  ∧ link (this (emitted d l dev s)) = link (this s)
  ∧ in_micro (emitted d l dev s) = in_micro s
  ∧ bufs (emitted d l dev s) = bufs s
  ∧ ∃ more, ticks (emitted d l dev s) = ticks s ++ more.
Proof.
  unfold emitted. destruct (pendingRead (this s)); simpl;
    rewrite lookup_insert_eq; repeat split; eauto.
  exists []. by rewrite app_nil_r.
Qed.

(** A callback of an emission, run on an instance open on [l]. *)
Lemma run_tick_emission t s l dev :
  emission l t = true →
  isOpen (this s) = true →
  port (this s) = Some l →
  heap s !! l = Some dev →
  run_tick t s = emitted (payload dev t) l dev s.
Proof.
  intros Ht Hopen Hport Hdev. destruct t; try discriminate; simpl in *.
  - apply bool_decide_eq_true in Ht. subst l0.
    unfold run_callback, getThis, deref, mbind, M_bind. simpl.
    rewrite Hopen, Hdev. by rewrite (emitData_open _ _ l dev).
  - unfold run_callback, getThis, mbind, M_bind. simpl.
    rewrite Hopen. by rewrite (emitData_open _ _ l dev).
Qed.

(** The same callbacks on an instance whose flag is false do nothing. *)
Lemma run_tick_emission_closed t s l :
  emission l t = true → isOpen (this s) = false → run_tick t s = s.
Proof.
  intros Ht Hs. destruct t; try discriminate; simpl;
    unfold run_callback, getThis, mbind, M_bind; simpl; by rewrite Hs.
Qed.

(** Emissions at the head of the tick queue run in queue order: after as
    many turns as there are emissions, the receive buffer has grown by
    their payloads, in that order. *)
Lemma emissions_in_order ts : ∀ s l dev rest,
  forallb (emission l) ts = true →
  in_micro s = false →
  ticks s = ts ++ rest →
  isOpen (this s) = true →
  port (this s) = Some l →
  heap s !! l = Some dev →
  let s' := run_loop (length ts) s in
  heap s' !! l = Some (set_data (data dev ++ concat (map (payload dev) ts)) dev)
  ∧ link (this s') = link (this s)
  ∧ ∃ more, ticks s' = rest ++ more.
Proof.
  induction ts as [| t ts IH]; intros s l dev rest Hts Hmicro Hticks Hopen Hport Hdev.
  - simpl. rewrite app_nil_r. destruct dev; simpl in *.
    repeat split; [done |]. exists []. by rewrite app_nil_r.
  - simpl in Hts. apply andb_prop in Hts as [Ht Hts].
    cbn [run_loop length]. unfold loop_step. rewrite Hmicro, Hticks. simpl.
    rewrite (run_tick_emission t _ l dev Ht) by done.
    match goal with |- context [emitted ?d l dev ?s0] =>
      destruct (emitted_facts d l dev s0) as (Hh & Hl & Hm & _ & more & Hq);
      remember (emitted d l dev s0) as s1 eqn:Hs1
    end.
    clear Hs1. simpl in Hl, Hm, Hq. unfold link in Hl. injection Hl as Hl1 Hl2.
    rewrite <- app_assoc in Hq.
    destruct (IH s1 l (set_data (data dev ++ payload dev t) dev) (rest ++ more) Hts)
      as (Hh' & Hl' & more' & Hq');
      [by rewrite Hm | exact Hq | by rewrite Hl1 | by rewrite Hl2 | exact Hh |].
    split; [| split].
    + rewrite Hh'. simpl. by rewrite <- app_assoc.
    + rewrite Hl'. unfold link. by rewrite Hl1, Hl2.
    + exists (more ++ more'). by rewrite Hq', app_assoc.
Qed.

(** What a successful rest of [open] has done. *)
Lemma open_resumed_ok path options s v s' l dev :
  ports s !! path = Some l →
  heap s !! l = Some dev →
  open_resumed path options s = (Ok v, s') →
  ticks s' = (if echo dev then ticks s ++ [TReady l] else ticks s)
  ∧ heap s' = <[l := set_openOpt (Some (object_assign options)) dev]> (heap s)
  ∧ link (this s') = (true, Some l).
Proof.
  intros Hpath Hdev. unfold open_resumed. unfold_prims. simpl.
  rewrite Hpath. simpl. rewrite Hdev. simpl.
  destruct (lock_held dev); simpl; [done |].
  destruct (isOpen (this s)); simpl; [| done].
  destruct (echo dev); simpl; intros [= <- <-]; done.
Qed.

(** What a successful rest of [write] has done. *)
Lemma write_resumed_ok r s v s' l dev d :
  port (this s) = Some l →
  heap s !! l = Some dev →
  bufs s !! r = Some d →
  write_resumed r s = (Ok v, s') →
  lastWrite (this s') = Some d
  ∧ recording (this s') =
      (if record dev then recording (this s) ++ d else recording (this s))
  ∧ ticks s' = (if echo dev then ticks s ++ [TEcho d] else ticks s)
  ∧ writeOperation (this s') = None
  ∧ link (this s') = link (this s)
  ∧ heap s' = heap s
  ∧ bufs s' = bufs s.
Proof.
  intros Hport Hdev Hbuf. unfold write_resumed. unfold_prims. simpl.
  rewrite Hport. destruct (isOpen (this s)); simpl; [| done].
  rewrite Hbuf. simpl. rewrite Hdev. simpl.
  destruct (record dev), (echo dev); simpl; intros [= <- <-]; done.
Qed.

(** [write] on an instance whose flag is set and that has no write in
    flight marks the new operation and waits for its tick. *)
Lemma write_accepts r p s :
  isOpen (this s) = true →
  writeOperation (this s) = None →
  write (ABuffer r) p s =
    (Ok (AwaitTick (KWrite r p)),
     set_this (set_writeOperation (Some p) (this s)) s).
Proof. intros Hopen Hw. msimpl. by rewrite Hopen, Hw. Qed.

(** On an open instance the write in flight runs to its end. *)
Lemma write_resumed_open r s l dev d :
  isOpen (this s) = true →
  port (this s) = Some l →
  heap s !! l = Some dev →
  bufs s !! r = Some d →
  ∃ s', write_resumed r s = (Ok (Return VUnit), s').
Proof.
  intros Hopen Hport Hdev Hbuf. unfold write_resumed. unfold_prims. simpl.
  rewrite Hport, Hopen. simpl. rewrite Hbuf. simpl. rewrite Hdev. simpl.
  destruct (record dev), (echo dev); simpl; by eexists.
Qed.

(** C4: on an open instance with a write in flight, a further [write] is
    refused with the overlapping-writes error and changes nothing; when the
    write in flight finishes it clears [writeOperation], the instance is
    still open, and the next [write] is accepted and runs to its end like
    any other. *)
Theorem C4_overlapping_write_refused_then_accepted
    (s : State) (l : loc) (dev : MockPort) (r r' : loc) (d d' : bytes) (w p : pid) :
  isOpen (this s) = true →
  port (this s) = Some l →
  heap s !! l = Some dev →
  bufs s !! r = Some d →
  bufs s !! r' = Some d' →
  writeOperation (this s) = Some w →
  write (ABuffer r') p s = (Throw OverlappingWrite, s)
  ∧ ∃ s1 s2 s3,
      write_resumed r s = (Ok (Return VUnit), s1)
      ∧ writeOperation (this s1) = None
      ∧ is_open (this s1) = true
      ∧ write (ABuffer r') p s1 = (Ok (AwaitTick (KWrite r' p)), s2)
      ∧ writeOperation (this s2) = Some p
      ∧ write_resumed r' s2 = (Ok (Return VUnit), s3)
      ∧ lastWrite (this s3) = Some d'
      ∧ writeOperation (this s3) = None.
Proof.
  intros Hopen Hport Hdev Hbuf Hbuf' Hw. split.
  - msimpl. rewrite Hopen, Hw. reflexivity.
  - destruct (write_resumed_open r s l dev d Hopen Hport Hdev Hbuf) as (s1 & Hs1).
    destruct (write_resumed_ok _ _ _ _ _ _ _ Hport Hdev Hbuf Hs1)
      as (_ & _ & _ & Hw1 & Hl1 & Hh1 & Hb1).
    unfold link in Hl1. injection Hl1 as Hopen1 Hport1.
    rewrite Hopen in Hopen1. rewrite Hport in Hport1.
    set (s2 := set_this (set_writeOperation (Some p) (this s1)) s1).
    destruct (write_resumed_open r' s2 l dev d') as (s3 & Hs3);
      [done | done | by simpl; rewrite Hh1 | by simpl; rewrite Hb1 |].
    destruct (write_resumed_ok r' s2 (Return VUnit) s3 l dev d') as (Hlw & _ & _ & Hw3 & _);
      [done | by simpl; rewrite Hh1 | by simpl; rewrite Hb1 | exact Hs3 |].
    exists s1, s2, s3. split; [exact Hs1 |]. split; [exact Hw1 |].
    split; [unfold is_open; by rewrite Hopen1, Hport1 |].
    split; [by apply write_accepts |]. done.
Qed.

Lemma C4_witness :
  write (ABuffer 0) 8 writing = (Throw OverlappingWrite, writing)
  ∧ ∃ s1 s2 s3,
      write_resumed 0 writing = (Ok (Return VUnit), s1)
      ∧ writeOperation (this s1) = None
      ∧ is_open (this s1) = true
      ∧ write (ABuffer 0) 8 s1 = (Ok (AwaitTick (KWrite 0 8)), s2)
      ∧ writeOperation (this s2) = Some 8
      ∧ write_resumed 0 s2 = (Ok (Return VUnit), s3)
      ∧ lastWrite (this s3) = Some AB
      ∧ writeOperation (this s3) = None.
Proof.
  apply (C4_overlapping_write_refused_then_accepted
           writing 0 (robot false false [] (Some ∅)) 0 0 AB AB 7 8);
    reflexivity.
Defined.

(** C5, as amended: on a device created with echo on, a successful [open]
    queues one callback for the ready data and does not touch the receive
    buffer itself; a write that completes queues one callback for its
    bytes; a queued emission that finds the instance closed does nothing;
    and while the instance stays open the queued emissions run in the order
    they were queued, so that the receive buffer grows by the ready data
    and then by the bytes of the writes in write order. *)
Theorem C5_echo_is_deferred_and_ordered (s : State) (l : loc) (dev : MockPort) :
  heap s !! l = Some dev →
  echo dev = true →
  (∀ path options v s',
      ports s !! path = Some l →
      open_resumed path options s = (Ok v, s') →
      ticks s' = ticks s ++ [TReady l]
      ∧ (data <$> heap s' !! l) = Some (data dev)
      ∧ is_open (this s') = true)
  ∧ (∀ r d v s',
      port (this s) = Some l →
      bufs s !! r = Some d →
      write_resumed r s = (Ok v, s') →
      ticks s' = ticks s ++ [TEcho d] ∧ heap s' = heap s)
  ∧ (∀ t, emission l t = true → isOpen (this s) = false → run_tick t s = s)
  ∧ (∀ ts rest,
      forallb (emission l) ts = true →
      in_micro s = false →
      ticks s = ts ++ rest →
      isOpen (this s) = true →
      port (this s) = Some l →
      (data <$> heap (run_loop (length ts) s) !! l) =
        Some (data dev ++ concat (map (payload dev) ts))).
Proof.
  intros Hdev Hecho. split; [| split; [| split]].
  - intros path options v s' Hpath Hok.
    destruct (open_resumed_ok _ _ _ _ _ _ _ Hpath Hdev Hok) as (Ht & Hh & Hl).
    rewrite Hecho in Ht. unfold link in Hl. injection Hl as Hl1 Hl2.
    split; [exact Ht |]. split.
    + by rewrite Hh, lookup_insert_eq.
    + unfold is_open. by rewrite Hl1, Hl2.
  - intros r d v s' Hport Hbuf Hok.
    destruct (write_resumed_ok _ _ _ _ _ _ _ Hport Hdev Hbuf Hok)
      as (_ & _ & Ht & _ & _ & Hh & _).
    rewrite Hecho in Ht. by split.
  - intros t. apply run_tick_emission_closed.
  - intros ts rest Hts Hmicro Hticks Hopen Hport.
    destruct (emissions_in_order ts s l dev rest Hts Hmicro Hticks Hopen Hport Hdev)
      as (Hh & _).
    by rewrite Hh.
Qed.

Lemma C5_witness :
  (data <$> heap (run_loop 2 emissions_queued) !! 0) = Some (READY ++ AB).
Proof.
  destruct (C5_echo_is_deferred_and_ordered
              emissions_queued 0 (robot true false [] (Some ∅)) eq_refl eq_refl)
    as (_ & _ & _ & H).
  exact (H [TReady 0; TEcho AB] [] eq_refl eq_refl eq_refl eq_refl eq_refl).
Defined.

Lemma idle_loop_step s :
  ticks s = [] → micro s = [] → in_micro s = false → loop_step s = s.
Proof. intros Ht Hm Hi. unfold loop_step. by rewrite Hi, Ht, Hm. Qed.

Lemma idle_run_loop n s :
  ticks s = [] → micro s = [] → in_micro s = false → run_loop n s = s.
Proof.
  intros Ht Hm Hi. induction n as [| n IH]; [done |].
  simpl. by rewrite idle_loop_step.
Qed.

(** C5 as worded fails for a write that completes just before the instance
    is closed: the write's promise is fulfilled, its bytes are in
    [lastWrite], and the echo callback, run after [close], emits nothing;
    the loop is then idle and the bytes never reach the receive buffer. *)
Lemma C5_counterexample :
  let s := run write_then_close echo_open in
  (echo <$> heap echo_open !! 0) = Some true
  ∧ is_open (this echo_open) = true
  ∧ proms s !! 0 = Some (Fulfilled VUnit)
  ∧ lastWrite (this s) = Some AB
  ∧ (data <$> heap s !! 0) = Some []
  ∧ ∀ n, run_loop n s = s.
Proof.
  repeat split. intros n. by apply idle_run_loop.
Qed.

(** ** write and the caller's buffer *)

(** The caller writing into one of its buffers changes [bufs] only. *)
Lemma poke_frame r i x s :
  this (poke r i x s) = this s
  ∧ heap (poke r i x s) = heap s
  ∧ ticks (poke r i x s) = ticks s
  ∧ micro (poke r i x s) = micro s
  ∧ proms (poke r i x s) = proms s.
Proof. unfold poke. by destruct (bufs s !! r). Qed.

(** An echo callback does not look at the caller's buffers. *)
Lemma run_tick_echo_bufs d b s :
  run_tick (TEcho d) (set_bufs b s) = set_bufs b (run_tick (TEcho d) s)
  ∧ bufs (run_tick (TEcho d) s) = bufs s.
Proof.
  unfold run_tick, run_callback, emitData. unfold_prims. simpl.
  destruct (isOpen (this s)) eqn:Hopen; simpl; [| by split].
  destruct (port (this s)) as [l |]; simpl; [| by split].
  rewrite Hopen. simpl.
  destruct (heap s !! l) as [p |]; simpl; [| by split].
  destruct (pendingRead (this s)); by split.
Qed.




(** ** Runs from the outside *)

(** A path nobody created. *)
Example open_unknown_path :
  proms (run [ACall (COpen "/dev/p3" options9600); ATurn; ATurn; ATurn] initial) !! 0
  = Some (Rejected NotFound).
Proof. reflexivity. Qed.

(** An instance that already counts as open gets past the last guard of
    [open]: on the echoing device the ready data is then queued. *)
Example open_on_open_instance :
  ∃ s', open_resumed "/dev/ROBOT" options9600 (opened true false []) =
          (Ok (Return VUnit), s')
    ∧ ticks s' = [TReady 0]
    ∧ (data <$> heap s' !! 0) = Some [].
Proof. eexists. split; [vm_compute; reflexivity |]. split; reflexivity. Qed.

(** A non-Buffer handed to [write] on the new instance: the promise
    returned is rejected with the TypeError. *)
Example write_non_buffer_rejected :
  proms (call (CWrite (AOther (VPrim (PStr "hello")))) initial).2 !! 0
  = Some (Rejected InvalidBuffer).
Proof. reflexivity. Qed.

(** [read] parks its continuation only on an instance that passes the
    open test. *)
Lemma read_resumed_parks_when_open rk s s' :
  read_resumed rk s = (Ok Park, s') →
  is_open (this s) = true ∧ pendingRead (this s') = Some rk.
Proof.
  unfold read_resumed, is_open. unfold_prims. simpl.
  destruct (port (this s)) as [l |]; simpl; [| done].
  destruct (isOpen (this s)); simpl; [| done].
  destruct (heap s !! l) as [p |]; simpl; [| done].
  case_bool_decide; simpl; [by intros [= <-] |].
  destruct (bufs s !! rk_buffer rk); simpl; done.
Qed.

(** A read on the open instance with nothing buffered is parked; [close]
    then rejects its promise with 'port is closed'. *)
Example parked_read_rejected_by_close :
  let s := run read_then_close (with_buffer 0 AB (opened false false [])) in
  proms s !! 0 = Some (Rejected PortClosed)
  ∧ proms s !! 1 = Some (Fulfilled VUnit)
  ∧ is_open (this s) = false.
Proof. repeat split. Qed.

(** ** createPort *)

(** The object [createPort] allocates is new: no existing device sits at
    its location. *)
Lemma createPort_fresh (s : State) : heap s !! fresh (dom (heap s)) = None.
Proof. apply not_elem_of_dom, is_fresh. Qed.

(** X1: [createPort path options] puts a new device under [path]: empty
    receive buffer, not open and not locked, the options given or else
    their defaults (no echo, no recording, "READY"), the path as its name
    and the incremented counter as its serial number (the counter plus
    one, as long as that is exact).  This holds as well
    when [path] was registered before: the table then points at the new
    device. *)
Theorem createPort_registers_a_new_device
    (path : string) (options : PortOptions) (s : State) :
  ∃ l dev,
    ports (createPort path options s) !! path = Some l
    ∧ heap (createPort path options s) !! l = Some dev
    ∧ heap s !! l = None
    ∧ data dev = [] ∧ openOpt dev = None ∧ lock_held dev = false
    ∧ echo dev = default false (o_echo options)
    ∧ record dev = default false (o_record options)
    ∧ readyData dev = default READY (o_readyData options)
    ∧ comName (info dev) = path
    ∧ info_serialNumber (info dev) = js_incr (serialNumber s)
    ∧ ((serialNumber s < 2 ^ 53)%N →
       info_serialNumber (info dev) = (serialNumber s + 1)%N).
Proof.
  eexists _, _. unfold createPort. simpl.
  split; [apply lookup_insert_eq |]. split; [apply lookup_insert_eq |].
  split; [apply createPort_fresh |].
  repeat split. apply js_incr_exact.
Qed.

(** X2: [createPort] disturbs nothing that exists: unless [path] is
    "__proto__" (which replaces what the table inherits from), the other
    names of the table keep what they had; under every [path], every
    device object already allocated is left as it is (also the one [path]
    pointed at before, which an instance may still hold open), and the
    instance, the queues and the promises are untouched. *)
Theorem createPort_keeps_existing_devices
    (path : string) (options : PortOptions) (s : State) :
  (path ≠ "__proto__" →
   ∀ path', path' ≠ path →
     ports (createPort path options s) !! path' = ports s !! path')
  ∧ (∀ l dev, heap s !! l = Some dev →
       heap (createPort path options s) !! l = Some dev)
  ∧ this (createPort path options s) = this s
  ∧ ticks (createPort path options s) = ticks s
  ∧ micro (createPort path options s) = micro s
  ∧ proms (createPort path options s) = proms s
  ∧ bufs (createPort path options s) = bufs s.
Proof.
  unfold createPort. simpl. split; [| split; [| done]].
  - intros _ path' Hne. by rewrite lookup_insert_ne.
  - intros l dev Hl. rewrite lookup_insert_ne; [done |].
    intros <-. by rewrite createPort_fresh in Hl.
Qed.

(** Re-creating the path of a device that an instance holds open: the
    instance goes on reading the bytes of the old device. *)
Example recreate_under_open_instance :
  let s := createPort "/dev/ROBOT" no_options two_buffered_roomy in
  (∃ l, ports s !! "/dev/ROBOT" = Some l ∧ l ≠ 0)
  ∧ (read_resumed read_two s).1 = Ok (Return (VCount 2)).
Proof. split; [by eexists |]. reflexivity. Qed.

(** ** open: arguments and order of the checks *)

Lemma call_lookup_rejected c s e s' :
  start c (fresh (dom (proms s))) (set_proms (<[fresh (dom (proms s)) := Pending []]> (proms s)) s)
    = (Throw e, s') →
  proms s' = <[fresh (dom (proms s)) := Pending []]> (proms s) →
  micro s' = micro s →
  proms (call c s).2 !! (call c s).1 = Some (Rejected e)
  ∧ micro (call c s).2 = micro s.
Proof.
  intros Hstart Hp Hm. unfold call, spawn. simpl. rewrite Hstart.
  unfold settle. rewrite Hp, lookup_insert_eq. simpl.
  rewrite lookup_insert_eq, Hm. by rewrite app_nil_r.
Qed.

(** X3: [open] with an empty path, or with options that are not an object,
    is refused with a TypeError before anything else happens: the promise
    handed back is already rejected, nothing is queued, and neither the
    instance (in particular [this.port]) nor any device is touched.  The
    empty path is reported first; [null] passes as an object. *)
Theorem open_refuses_bad_arguments (path : string) (options : JsVal) (s : State) :
  path = "" ∨ typeof_object options = false →
  let r := call (COpen path options) s in
  let e := if String.eqb path "" then InvalidPath else InvalidOptions in
  proms r.2 !! r.1 = Some (Rejected e)
  ∧ is_TypeError e = true
  ∧ this r.2 = this s ∧ heap r.2 = heap s ∧ ports r.2 = ports s
  ∧ ticks r.2 = ticks s ∧ micro r.2 = micro s.
Proof.
  intros Hbad. simpl.
  assert (Hstart : ∀ p s0, open path options p s0 =
            (Throw (if String.eqb path "" then InvalidPath else InvalidOptions), s0)).
  { intros p s0. unfold open. destruct (String.eqb path "") eqn:Hp; [done |].
    destruct Hbad as [-> | ->]; [done | done]. }
  destruct (call_lookup_rejected (COpen path options) s _ _ (Hstart _ _) eq_refl eq_refl)
    as [Hr Hm].
  split; [exact Hr |]. split; [by destruct (String.eqb path "") |].
  unfold call, spawn. simpl. rewrite Hstart.
  unfold settle. simpl. rewrite lookup_insert_eq. simpl.
  repeat split. by rewrite app_nil_r.
Qed.

Lemma open_refuses_bad_arguments_witness :
  let r := call (COpen "/dev/ROBOT" (VPrim (PNum 9600))) (registered (robot false false [] None)) in
  proms r.2 !! r.1 = Some (Rejected InvalidOptions)
  ∧ this r.2 = new_instance.
Proof.
  destruct (open_refuses_bad_arguments "/dev/ROBOT" (VPrim (PNum 9600))
              (registered (robot false false [] None)))
    as (H1 & _ & H2 & _); [by right |].
  split; [exact H1 | exact H2].
Defined.

(** X4: for a path that is registered, or else is an ordinary name (one
    the table does not inherit), the rest of [open] makes its checks in
    this order: is the path in the table, is the device locked, and then
    the test of the instance's own flag.  Whichever of them throws, no
    device object, no queue and not the flag [isOpen] has been changed by
    then.  [this.port] has: it holds what the table has under [path].
    And when the path is registered, [this.serialNumber] has as well: it
    holds the serial number of that device, taken (line 123) before the
    lock and the flag are looked at; when the path is not found it is
    left as it was.  The other fields of the instance are as before. *)
Theorem open_checks_in_order
    (path : string) (options : JsVal) (s s' : State) (e : Error) :
  (∀ l, ports s !! path = Some l → is_Some (heap s !! l)) →
  (ports s !! path = None → ordinary path = true) →
  open_resumed path options s = (Throw e, s') →
  e = match ports s !! path ≫= (heap s !!.) with
      | None => NotFound
      | Some dev => if lock_held dev then LockConflict else AlreadyOpen
      end
  ∧ (e = AlreadyOpen → isOpen (this s) = false)
  ∧ heap s' = heap s
  ∧ ticks s' = ticks s ∧ micro s' = micro s ∧ proms s' = proms s
  ∧ isOpen (this s') = isOpen (this s)
  ∧ port (this s') = ports s !! path
  ∧ inst_serialNumber (this s') =
      match ports s !! path ≫= (heap s !!.) with
      | None => inst_serialNumber (this s)
      | Some dev => Some (info_serialNumber (info dev))
      end
  ∧ lastWrite (this s') = lastWrite (this s)
  ∧ pendingRead (this s') = pendingRead (this s)
  ∧ recording (this s') = recording (this s)
  ∧ writeOperation (this s') = writeOperation (this s).
Proof.
  intros Hwf _. unfold open_resumed. unfold_prims. simpl.
  destruct (ports s !! path) as [l |] eqn:Hpath; simpl.
  - destruct (Hwf l eq_refl) as [dev Hdev]. rewrite Hdev. simpl.
    destruct (lock_held dev); simpl; [by intros [= <- <-] |].
    destruct (isOpen (this s)) eqn:Hopen; simpl.
    + by destruct (echo dev).
    + by intros [= <- <-].
  - by intros [= <- <-].
Qed.

Lemma open_checks_in_order_witness :
  ∃ s', open_resumed "/dev/ROBOT" options9600
          (registered (robot false false AB (Some {[ "lock" := PBool true ]})))
        = (Throw LockConflict, s')
    ∧ heap s' = heap (registered (robot false false AB (Some {[ "lock" := PBool true ]})))
    ∧ inst_serialNumber (this s') = Some 1%N.
Proof.
  destruct (open_checks_in_order "/dev/ROBOT" options9600
              (registered (robot false false AB (Some {[ "lock" := PBool true ]})))
              (open_resumed "/dev/ROBOT" options9600
                 (registered (robot false false AB (Some {[ "lock" := PBool true ]})))).2
              LockConflict)
    as (_ & _ & Hheap & _ & _ & _ & _ & _ & Hserial & _).
  - intros l Hl. vm_compute in Hl. injection Hl as <-. by eexists.
  - intros Hl. vm_compute in Hl. discriminate.
  - reflexivity.
  - exists (open_resumed "/dev/ROBOT" options9600
              (registered (robot false false AB (Some {[ "lock" := PBool true ]})))).2.
    split; [reflexivity |]. split; [exact Hheap |].
    rewrite Hserial. reflexivity.
Defined.

(** ** close *)

Lemma settle_frame q o s :
  heap (settle q o s).2 = heap s
  ∧ ports (settle q o s).2 = ports s
  ∧ bufs (settle q o s).2 = bufs s
  ∧ ticks (settle q o s).2 = ticks s.
Proof. unfold settle. by destruct (proms s !! q) as [[] |]. Qed.

(** X6: [close] on an open instance gives the device back: its [openOpt]
    becomes null, so it is no longer locked, and its receive buffer is
    emptied; the instance drops the reference, the flag and the serial
    number, and keeps [lastWrite], the recording, the stored read
    continuation and the marker of a write in flight.  The device stays in
    the table.  A second [close] throws 'already closed' and changes
    nothing. *)
Theorem close_releases_the_device (s : State) (l : loc) (dev : MockPort) :
  isOpen (this s) = true →
  port (this s) = Some l →
  heap s !! l = Some dev →
  ∃ s', close s = (Ok (Return VUnit), s')
    ∧ heap s' = <[l := set_data [] (set_openOpt None dev)]> (heap s)
    ∧ (∃ dev', heap s' !! l = Some dev' ∧ lock_held dev' = false ∧ data dev' = [])
    ∧ ports s' = ports s
    ∧ this s' = set_isOpen false (set_inst_serialNumber None (set_port None (this s)))
    ∧ close s' = (Throw AlreadyClosed, s').
Proof.
  intros Hopen Hport Hdev.
  unfold close, guardOpen, deref, store, modThis, getThis, throw,
    mbind, mret, M_bind, M_ret.
  simpl. rewrite Hport, Hopen. simpl. rewrite Hdev. simpl.
  destruct (pendingRead (this s)) as [rk |]; simpl.
  - match goal with
    | |- context [settle ?q ?o ?s0] =>
        pose proof (settle_frame q o s0) as (Hh & Hp & _);
        pose proof (this_settle q o s0) as Ht;
        destruct (settle q o s0) as [[[] | e] s'] eqn:Hs
    end; simpl in *.
    + exists s'. split; [done |]. split; [done |].
      split; [eexists; rewrite Hh, lookup_insert_eq; done |].
      split; [done |]. split; [done |].
      by rewrite Ht.
    + unfold settle in Hs. by destruct (proms _ !! _) as [[] |] in Hs.
  - eexists. split; [done |]. simpl. split; [done |].
    split; [eexists; rewrite lookup_insert_eq; done |]. done.
Qed.

Lemma close_releases_the_device_witness :
  ∃ s', close (opened false false AB) = (Ok (Return VUnit), s')
    ∧ (∃ dev', heap s' !! 0 = Some dev' ∧ lock_held dev' = false ∧ data dev' = [])
    ∧ close s' = (Throw AlreadyClosed, s').
Proof.
  destruct (close_releases_the_device (opened false false AB) 0
              (robot false false AB (Some ∅)) eq_refl eq_refl eq_refl)
    as (s' & H1 & _ & H2 & _ & _ & H3).
  exists s'. split; [exact H1 |]. split; [exact H2 | exact H3].
Defined.

(** ** emitData *)

(** On an instance that is not open [emitData] throws and changes
    nothing. *)
Lemma emitData_not_open d s :
  is_open (this s) = false → emitData d s = (Throw EmitNotOpen, s).
Proof.
  unfold is_open, emitData. unfold_prims. simpl.
  destruct (port (this s)); [| done]. by destruct (isOpen (this s)).
Qed.

(** X7: Two emissions in a row are one emission of the two pieces joined:
    the receive buffer grows by the first piece and then the second, and
    a parked read is handed to the tick queue once, by the first of them,
    not a second time. *)
Theorem emitData_twice_is_emitData_once
    (d1 d2 : bytes) (s : State) (l : loc) (dev : MockPort) :
  isOpen (this s) = true →
  port (this s) = Some l →
  heap s !! l = Some dev →
  emitData d2 (emitData d1 s).2 = emitData (d1 ++ d2) s
  ∧ (data <$> heap (emitData (d1 ++ d2) s).2 !! l) = Some (data dev ++ d1 ++ d2)
  ∧ pendingRead (this (emitData (d1 ++ d2) s).2) = None
  ∧ ticks (emitData (d1 ++ d2) s).2 =
      ticks s ++ match pendingRead (this s) with
                 | Some rk => [TWake rk]
                 | None => []
                 end.
Proof.
  intros Hopen Hport Hdev.
  rewrite (emitData_open d1 s l dev), (emitData_open (d1 ++ d2) s l dev) by done.
  simpl.
  rewrite (emitData_open d2 _ l (set_data (data dev ++ d1) dev)).
  - unfold emitted. destruct (pendingRead (this s)) as [rk |] eqn:Hrk; simpl.
    + rewrite insert_insert_eq, lookup_insert_eq, <- app_assoc. done.
    + rewrite Hrk, insert_insert_eq, lookup_insert_eq, <- app_assoc, app_nil_r. done.
  - unfold emitted. by destruct (pendingRead (this s)).
  - unfold emitted. by destruct (pendingRead (this s)).
  - unfold emitted. destruct (pendingRead (this s)); simpl; apply lookup_insert_eq.
Qed.

Lemma emitData_twice_is_emitData_once_witness :
  emitData AB (emitData READY waiting).2 = emitData (READY ++ AB) waiting
  ∧ ticks (emitData (READY ++ AB) waiting).2 = [TWake parked_read].
Proof.
  destruct (emitData_twice_is_emitData_once READY AB waiting 0
              (robot false false [] (Some ∅)) eq_refl eq_refl eq_refl)
    as (H1 & _ & _ & H2).
  split; [exact H1 | exact H2].
Defined.

(** ** Turns of the loop, one case at a time *)

Lemma run_loop_S' n s : run_loop (S n) s = run_loop n (loop_step s).
Proof. done. Qed.

Lemma run_loop_tick n s t ts :
  in_micro s = false → ticks s = t :: ts →
  run_loop (S n) s = run_loop n (run_tick t (set_ticks ts s)).
Proof. intros Hi Ht. simpl. unfold loop_step. by rewrite Hi, Ht. Qed.

Lemma run_loop_switch n s :
  in_micro s = false → ticks s = [] → micro s ≠ [] →
  run_loop (S n) s = run_loop n (set_in_micro true s).
Proof.
  intros Hi Ht Hm. simpl. unfold loop_step. rewrite Hi, Ht. by destruct (micro s).
Qed.

Lemma run_loop_micro n s k ks :
  in_micro s = true → micro s = k :: ks →
  run_loop (S n) s = run_loop n (run_micro k (set_micro ks s)).
Proof. intros Hi Hm. simpl. unfold loop_step. by rewrite Hi, Hm. Qed.

Lemma run_loop_switch_back n s :
  in_micro s = true → micro s = [] →
  run_loop (S n) s = run_loop n (set_in_micro false s).
Proof. intros Hi Hm. simpl. unfold loop_step. by rewrite Hi, Hm. Qed.

#[local] Arguments run_loop : simpl never.
#[local] Arguments loop_step : simpl never.

(** ** read: the parked read, and the edges *)

(** The state a read that finds bytes leaves behind. *)
Lemma read_resumed_serves (s : State) (l : loc) (dev : MockPort) (rk : ReadK) (b : bytes) :
  isOpen (this s) = true →
  port (this s) = Some l →
  heap s !! l = Some dev →
  bufs s !! rk_buffer rk = Some b →
  data dev ≠ [] →
  let n := length (take (rk_length rk) (data dev)) `min` (length b - rk_offset rk) in
  read_resumed rk s =
    (Ok (Return (VCount n)),
     set_heap (<[l := set_data (drop (rk_length rk) (data dev)) dev]> (heap s))
       (set_bufs (<[rk_buffer rk := take (rk_offset rk) b
                                      ++ take n (take (rk_length rk) (data dev))
                                      ++ drop (rk_offset rk + n) b]> (bufs s)) s)).
Proof.
  intros Hopen Hport Hdev Hbuf Hdata n.
  assert (0 < length (data dev)) by (destruct (data dev); [done | simpl; lia]).
  msimpl. rewrite Hport, Hopen. simpl. rewrite Hdev. simpl.
  rewrite bool_decide_eq_false_2 by lia. by rewrite Hbuf.
Qed.

(** From the wake-up tick of a parked read to the promise job that
    resumes it: three turns. *)
Lemma wake_three_turns (s : State) (rk : ReadK) :
  in_micro s = false → ticks s = [TWake rk] → micro s = [] →
  run_loop 3 s = set_in_micro true (set_micro [KRead rk] (set_ticks [] s)).
Proof.
  intros Hi Ht Hm. destruct s, rk. simpl in Hi, Ht, Hm. subst. reflexivity.
Qed.

Lemma run_loop_add (m n : nat) (s : State) :
  run_loop (m + n) s = run_loop n (run_loop m s).
Proof.
  revert s. induction m as [| m IH]; intros s; [done |].
  change (S m + n) with (S (m + n)). rewrite !run_loop_S'. apply IH.
Qed.



(** X9: A [read] with [length] zero on a non-empty receive buffer returns 0 at
    once: it does not park, and neither the receive buffer nor the
    contents of the caller's Buffer change. *)
Theorem read_of_length_zero
    (s : State) (l : loc) (dev : MockPort) (rk : ReadK) (b : bytes) :
  isOpen (this s) = true →
  port (this s) = Some l →
  heap s !! l = Some dev →
  bufs s !! rk_buffer rk = Some b →
  data dev ≠ [] →
  rk_length rk = 0 →
  ∃ s', read_resumed rk s = (Ok (Return (VCount 0)), s')
    ∧ (data <$> heap s' !! l) = Some (data dev)
    ∧ bufs s' !! rk_buffer rk = Some b
    ∧ this s' = this s.
Proof.
  intros Hopen Hport Hdev Hbuf Hdata Hlen.
  rewrite (read_resumed_serves s l dev rk b) by done.
  rewrite Hlen. simpl. eexists. split; [reflexivity |]. simpl.
  rewrite !lookup_insert_eq. simpl.
  split; [done |]. split; [| done].
  by rewrite Nat.add_0_r, take_drop.
Qed.

Lemma read_of_length_zero_witness :
  ∃ s', read_resumed {| rk_buffer := 0; rk_offset := 1; rk_length := 0; rk_promise := 5 |}
          two_buffered_roomy = (Ok (Return (VCount 0)), s')
    ∧ (data <$> heap s' !! 0) = Some AB.
Proof.
  destruct (read_of_length_zero two_buffered_roomy 0 (robot false false AB (Some ∅))
              {| rk_buffer := 0; rk_offset := 1; rk_length := 0; rk_promise := 5 |}
              (String.list_byte_of_string "....")
              eq_refl eq_refl eq_refl eq_refl) as (s' & H1 & H2 & _);
    [discriminate | reflexivity |].
  exists s'. by split.
Defined.

(** X10: A second [read] that finds the receive buffer empty while another read
    is parked takes its place in [pendingRead]; nothing is queued for the
    first one, and a [close] that follows rejects the promise of the second
    read only: the promise of the first is still pending. *)
Theorem second_parked_read_replaces_the_first
    (s : State) (l : loc) (dev : MockPort) (rk1 rk2 : ReadK) (ws1 ws2 : list Cont) :
  isOpen (this s) = true →
  port (this s) = Some l →
  heap s !! l = Some dev →
  data dev = [] →
  pendingRead (this s) = Some rk1 →
  proms s !! rk_promise rk1 = Some (Pending ws1) →
  proms s !! rk_promise rk2 = Some (Pending ws2) →
  rk_promise rk1 ≠ rk_promise rk2 →
  ∃ s1 s2,
    read_resumed rk2 s = (Ok Park, s1)
    ∧ pendingRead (this s1) = Some rk2
    ∧ ticks s1 = ticks s ∧ micro s1 = micro s ∧ proms s1 = proms s
    ∧ close s1 = (Ok (Return VUnit), s2)
    ∧ proms s2 !! rk_promise rk2 = Some (Rejected PortClosed)
    ∧ proms s2 !! rk_promise rk1 = Some (Pending ws1).
Proof.
  intros Hopen Hport Hdev Hdata Hrk1 Hp1 Hp2 Hne.
  unfold read_resumed, close. unfold_prims. simpl.
  rewrite Hport, Hopen. simpl. rewrite Hdev, Hdata. simpl.
  eexists _, _. split; [reflexivity |]. simpl.
  rewrite Hport, Hopen. simpl. rewrite Hdev. simpl. rewrite Hp2. simpl.
  split; [done |]. split; [done |]. split; [done |]. split; [done |].
  split; [done |]. simpl.
  rewrite lookup_insert_eq, lookup_insert_ne by done. done.
Qed.

Lemma second_parked_read_replaces_the_first_witness :
  ∃ s1 s2,
    read_resumed second_read two_reads = (Ok Park, s1)
    ∧ close s1 = (Ok (Return VUnit), s2)
    ∧ proms s2 !! 6 = Some (Rejected PortClosed)
    ∧ proms s2 !! 5 = Some (Pending []).
Proof.
  destruct (second_parked_read_replaces_the_first
              two_reads 0 (robot false false [] (Some ∅)) parked_read second_read [] [])
    as (s1 & s2 & H1 & _ & _ & _ & _ & H2 & H3 & H4);
    [reflexivity | reflexivity | reflexivity | reflexivity | reflexivity
    | reflexivity | reflexivity | simpl; lia |].
  exists s1, s2. by repeat split.
Defined.

(** ** write: cancellation and the recording *)

(** What [close] does on an open instance, field by field. *)
Lemma close_on_open (s : State) (l : loc) (dev : MockPort) :
  isOpen (this s) = true →
  port (this s) = Some l →
  heap s !! l = Some dev →
  ∃ s', close s = (Ok (Return VUnit), s')
    ∧ this s' = set_isOpen false (set_inst_serialNumber None (set_port None (this s)))
    ∧ heap s' = <[l := set_data [] (set_openOpt None dev)]> (heap s)
    ∧ ticks s' = ticks s
    ∧ bufs s' = bufs s.
Proof.
  intros Hopen Hport Hdev.
  unfold close, guardOpen, deref, store, modThis, getThis, throw,
    mbind, mret, M_bind, M_ret.
  simpl. rewrite Hport, Hopen. simpl. rewrite Hdev. simpl.
  destruct (pendingRead (this s)) as [rk |]; simpl; [| by eexists].
  match goal with
  | |- context [settle ?q ?o ?s0] =>
      pose proof (settle_frame q o s0) as (Hh & _ & Hb & Ht);
      pose proof (this_settle q o s0) as Hi;
      destruct (settle q o s0) as [[[] | e] s'] eqn:Hs
  end; simpl in *.
  - by exists s'.
  - unfold settle in Hs. by destruct (proms _ !! _) as [[] |] in Hs.
Qed.

(** X11: A write that is in flight when the port is closed fails with 'Write
    canceled' when it resumes.  It stores nothing: [lastWrite], the
    recording and the tick queue are as before the write; and it does not
    clear [writeOperation], which still holds the failed operation. *)
Theorem write_in_flight_is_cancelled_by_close
    (s : State) (l r : loc) (dev : MockPort) (p : pid) :
  isOpen (this s) = true →
  port (this s) = Some l →
  heap s !! l = Some dev →
  writeOperation (this s) = None →
  ∃ s1 s2,
    write (ABuffer r) p s = (Ok (AwaitTick (KWrite r p)), s1)
    ∧ close s1 = (Ok (Return VUnit), s2)
    ∧ write_resumed r s2 = (Throw WriteCanceled, s2)
    ∧ writeOperation (this s2) = Some p
    ∧ lastWrite (this s2) = lastWrite (this s)
    ∧ recording (this s2) = recording (this s)
    ∧ ticks s2 = ticks s.
Proof.
  intros Hopen Hport Hdev Hw.
  rewrite (write_accepts r p s Hopen Hw).
  destruct (close_on_open (set_this (set_writeOperation (Some p) (this s)) s) l dev)
    as (s2 & Hc & Hi & _ & Ht & _); [done | done | done |].
  eexists _, s2. split; [reflexivity |]. split; [exact Hc |].
  simpl in Hi, Ht. rewrite Hi, Ht. simpl.
  split; [| done].
  unfold write_resumed. unfold_prims. simpl. by rewrite Hi.
Qed.

Lemma write_in_flight_is_cancelled_by_close_witness :
  ∃ s1 s2,
    write (ABuffer 0) 3 recording_open = (Ok (AwaitTick (KWrite 0 3)), s1)
    ∧ close s1 = (Ok (Return VUnit), s2)
    ∧ write_resumed 0 s2 = (Throw WriteCanceled, s2)
    ∧ writeOperation (this s2) = Some 3
    ∧ recording (this s2) = [].
Proof.
  destruct (write_in_flight_is_cancelled_by_close recording_open 0 0
              (robot true true [] (Some ∅)) 3 eq_refl eq_refl eq_refl eq_refl)
    as (s1 & s2 & H1 & H2 & H3 & H4 & _ & H5 & _).
  exists s1, s2. by repeat split.
Defined.

(** X12: Writes made one after the other on an open instance, each left to
    finish: with recording on, the recording grows by the bytes of the
    writes in call order, whether or not the device echoes; with recording
    off it does not change.  The writes themselves never touch the
    receive buffer: with echo on, one echo per write is queued, in call
    order, and with echo off nothing is queued. *)
Theorem writes_are_recorded_in_order (rs : list loc) (ds : list bytes) :
  ∀ (s : State) (l : loc) (dev : MockPort) (p : pid),
  isOpen (this s) = true →
  port (this s) = Some l →
  heap s !! l = Some dev →
  writeOperation (this s) = None →
  Forall2 (λ r d, bufs s !! r = Some d) rs ds →
  let s' := write_each rs p s in
  recording (this s') =
    recording (this s) ++ (if record dev then concat ds else [])
  ∧ ticks s' = ticks s ++ (if echo dev then map TEcho ds else [])
  ∧ heap s' = heap s
  ∧ writeOperation (this s') = None
  ∧ is_open (this s') = true.
Proof.
  intros s l dev p Hopen Hport Hdev Hw Hall.
  remember (bufs s) as bf eqn:Hbf. revert s Hopen Hport Hdev Hw Hbf.
  induction Hall as [| r d rs ds Hr Hall IH]; intros s Hopen Hport Hdev Hw Hbf.
  - simpl. unfold is_open. rewrite Hopen, Hport.
    by destruct (record dev), (echo dev); rewrite !app_nil_r.
  - cbn [write_each]. rewrite (write_accepts r p s Hopen Hw).
    cbn [snd].
    set (s1 := set_this (set_writeOperation (Some p) (this s)) s).
    destruct (write_resumed_open r s1 l dev d) as (s2 & Hs2);
      [done | done | done | by subst bf |].
    destruct (write_resumed_ok r s1 (Return VUnit) s2 l dev d)
      as (_ & Hrec & Htk & Hw2 & Hl & Hh & Hb);
      [done | done | by subst bf | exact Hs2 |].
    rewrite Hs2. cbn [snd].
    unfold link in Hl. injection Hl as Hl1 Hl2. simpl in Hl1, Hl2, Hrec, Htk, Hh, Hb.
    destruct IH with (s := s2) as (IH1 & IH2 & IH3 & IH4 & IH5).
    + by rewrite Hl1.
    + by rewrite Hl2.
    + by rewrite Hh.
    + done.
    + by rewrite Hb.
    + rewrite IH1, IH2, IH3, Hrec, Htk, Hh. simpl.
      split; [| split; [| done]].
      * destruct (record dev); by rewrite <- ?app_assoc, ?app_nil_r.
      * destruct (echo dev); by rewrite <- ?app_assoc, ?app_nil_r.
Qed.

Lemma writes_are_recorded_in_order_witness :
  let s' := write_each [0; 1] 3 (with_buffer 1 XB recording_open) in
  recording (this s') = AB ++ XB
  ∧ ticks s' = [TEcho AB; TEcho XB].
Proof.
  destruct (writes_are_recorded_in_order [0; 1] [AB; XB]
              (with_buffer 1 XB recording_open) 0 (robot true true [] (Some ∅)) 3
              eq_refl eq_refl eq_refl eq_refl) as (H1 & H2 & _).
  - repeat constructor.
  - split; [exact H1 | exact H2].
Defined.

(** ** flush *)

(** X13: [flush], resumed on an open instance, empties the receive buffer and
    nothing else: the device keeps its options, the instance its fields,
    and the tick queue its callbacks.  An echo that was queued before
    therefore still arrives, into the emptied buffer.  When the instance
    was closed while [flush] was waiting, the assignment to
    [this.port.data] fails with the runtime's TypeError, not with 'Port is
    not open'. *)
Theorem flush_empties_the_receive_buffer
    (s : State) (l : loc) (dev : MockPort) (d : bytes) :
  isOpen (this s) = true →
  port (this s) = Some l →
  heap s !! l = Some dev →
  ∃ s', flush_resumed s = (Ok (Return VUnit), s')
    ∧ heap s' = <[l := set_data [] dev]> (heap s)
    ∧ this s' = this s ∧ ticks s' = ticks s ∧ micro s' = micro s
    ∧ (data <$> heap (run_tick (TEcho d) s') !! l) = Some d
    ∧ ∀ s2, close s = (Ok (Return VUnit), s2) →
        (flush_resumed s2).1 = Throw JsTypeError.
Proof.
  intros Hopen Hport Hdev.
  exists (set_heap (<[l := set_data [] dev]> (heap s)) s). split.
  { unfold flush_resumed. unfold_prims. simpl. rewrite Hport. simpl.
    by rewrite Hdev. }
  do 4 (split; [reflexivity |]). split.
  - rewrite (run_tick_emission (TEcho d) _ l (set_data [] dev));
      [| done | done | done | apply lookup_insert_eq].
    match goal with |- context [emitted ?d0 l ?dv ?s0] =>
      destruct (emitted_facts d0 l dv s0) as (Hh & _)
    end.
    rewrite Hh. done.
  - intros s2 Hc.
    destruct (close_on_open s l dev Hopen Hport Hdev) as (s2' & Hc' & Hi & _).
    rewrite Hc in Hc'. injection Hc' as <-.
    unfold flush_resumed. unfold_prims. simpl. by rewrite Hi.
Qed.

Lemma flush_empties_the_receive_buffer_witness :
  ∃ s', flush_resumed two_buffered = (Ok (Return VUnit), s')
    ∧ (data <$> heap (run_tick (TEcho XB) s') !! 0) = Some XB.
Proof.
  destruct (flush_empties_the_receive_buffer two_buffered 0
              (robot false false AB (Some ∅)) XB eq_refl eq_refl eq_refl)
    as (s' & H1 & _ & _ & _ & _ & H2 & _).
  exists s'. by split.
Defined.

(** ** update and getBaudRate *)

(** X14: [update] with a numeric [baudRate] is accepted on an open instance
    and changes nothing before its await; its continuation holds the
    [options] object, so a change the caller makes to the object in the
    meantime reaches it.  Resumed on an open instance, it reads
    [options.baudRate] from the object as it is by then and puts that
    value into the device's open options - the number given at the call
    if the object was left alone, whatever it holds otherwise, number or
    not - and leaves every other option, the lock among them, as it was;
    [getBaudRate] then resolves with that value. *)
Theorem update_then_getBaudRate
    (s : State) (l : loc) (dev : MockPort) (o opts opts' : gmap string Prim)
    (z : Z) (p : pid) :
  isOpen (this s) = true →
  port (this s) = Some l →
  heap s !! l = Some dev →
  openOpt dev = Some o →
  opts !! "baudRate" = Some (PNum z) →
  update (VObj opts) p s = (Ok (AwaitTick (KUpdate opts p)), s)
  ∧ change_cont p opts' (KUpdate opts p) = KUpdate opts' p
  ∧ prop opts "baudRate" = PNum z
  ∧ ∃ s' dev',
      update_resumed opts' s = (Ok (Return VUnit), s')
      ∧ heap s' !! l = Some dev'
      ∧ openOpt dev' = Some (<["baudRate" := prop opts' "baudRate"]> o)
      ∧ (∀ name, name ≠ "baudRate" →
           (openOpt dev' ≫= (.!! name)) = o !! name)
      ∧ lock_held dev' = lock_held dev
      ∧ data dev' = data dev
      ∧ getBaudRate_resumed s' = (Ok (Return (VBaud (prop opts' "baudRate"))), s').
Proof.
  intros Hopen Hport Hdev Ho Hopts. split; [| split; [| split]].
  - unfold update, prop. unfold_prims. simpl. rewrite Hopts. simpl.
    by rewrite Hport, Hopen.
  - simpl. by rewrite decide_True.
  - unfold prop. by rewrite Hopts.
  - set (dev' := set_openOpt (Some (<["baudRate" := prop opts' "baudRate"]> o)) dev).
    exists (set_heap (<[l := dev']> (heap s)) s), dev'. split.
    { unfold update_resumed, openOpt_of_this. unfold_prims. simpl.
      rewrite Hport. simpl. rewrite Hdev. simpl. by rewrite Ho. }
    split; [apply lookup_insert_eq |]. split; [reflexivity |].
    split; [intros name Hne; simpl; by rewrite lookup_insert_ne |].
    split; [| split; [reflexivity |]].
    + unfold lock_held. simpl. rewrite Ho. unfold prop at 1 3.
      by rewrite lookup_insert_ne.
    + unfold getBaudRate_resumed, openOpt_of_this. unfold_prims. simpl.
      rewrite Hport. simpl. rewrite lookup_insert_eq. simpl.
      unfold prop at 1. by rewrite lookup_insert_eq.
Qed.

Lemma update_then_getBaudRate_witness :
  ∃ s' dev',
    update_resumed {[ "baudRate" := PNum 9600 ]} (opened false false AB)
      = (Ok (Return VUnit), s')
    ∧ heap s' !! 0 = Some dev'
    ∧ getBaudRate_resumed s' = (Ok (Return (VBaud (PNum 9600))), s').
Proof.
  destruct (update_then_getBaudRate (opened false false AB) 0
              (robot false false AB (Some ∅)) ∅ {[ "baudRate" := PNum 115200 ]}
              {[ "baudRate" := PNum 9600 ]}
              115200 1 eq_refl eq_refl eq_refl eq_refl)
    as (_ & _ & _ & s' & dev' & H1 & H2 & _ & _ & _ & _ & H3); [reflexivity |].
  exists s', dev'. by repeat split.
Defined.

(** The whole way: the caller changes the object between the call and
    the turns of the loop, and [getBaudRate] resolves with the changed
    value. *)
Example update_sees_the_callers_change :
  let s := run [ ACall (CUpdate (VObj {[ "baudRate" := PNum 115200 ]}));
                 AChangeOptions 0 {[ "baudRate" := PStr "fast" ]};
                 ATurn; ATurn; ATurn;
                 ACall CGetBaudRate; ATurn; ATurn; ATurn; ATurn ]
               (opened false false AB) in
  proms s !! 0 = Some (Fulfilled VUnit)
  ∧ proms s !! 1 = Some (Fulfilled (VBaud (PStr "fast"))).
Proof. split; vm_compute; reflexivity. Qed.

(** X15: [update] checks its argument before the instance: whatever the state
    of the instance, a non-object is refused with '"options" is not an
    object' and an object without a numeric [baudRate] with
    '"options.baudRate" is not a number', both TypeErrors; only a
    well-formed argument gets 'Port is not open' on an instance that is
    not open.  In each case nothing is changed. *)
Theorem update_checks_argument_first (options : JsVal) (p : pid) (s : State) :
  is_open (this s) = false →
  ∃ e, update options p s = (Throw e, s)
    ∧ e = match options with
          | VObj o => if typeof_number (prop o "baudRate") then NotOpen
                      else InvalidBaudRate
          | VPrim PNull => JsTypeError
          | VPrim _ => InvalidOptions
          end
    ∧ (e = NotOpen ∨ is_TypeError e = true).
Proof.
  intros Hclosed. unfold is_open in Hclosed.
  unfold update. unfold_prims. simpl.
  destruct options as [[] | o]; simpl; try by eauto.
  destruct (typeof_number (prop o "baudRate")); simpl; [| by eauto].
  destruct (port (this s)); simpl; [| by eauto].
  destruct (isOpen (this s)); simpl; [done | by eauto].
Qed.

Lemma update_checks_argument_first_witness :
  update (VObj {[ "baudRate" := PStr "fast" ]}) 1 initial = (Throw InvalidBaudRate, initial).
Proof.
  destruct (update_checks_argument_first (VObj {[ "baudRate" := PStr "fast" ]}) 1 initial
              eq_refl) as (e & H & -> & _).
  exact H.
Defined.

(** ** drain *)

(** X16: [drain], called while a write is in flight, is attached to the promise
    of that write: its continuation sits in no queue until that promise
    is settled, so it cannot run before the write has finished.  Once the
    promise is settled the continuation becomes a promise job; it goes on
    to the final tick when the write succeeded and rethrows the error of
    the write when it failed. *)
Theorem drain_waits_for_the_write_in_flight
    (s : State) (l : loc) (w p : pid) (ws : list Cont) (o : PromState) :
  isOpen (this s) = true →
  port (this s) = Some l →
  writeOperation (this s) = Some w →
  proms s !! w = Some (Pending ws) →
  (∀ ws', o ≠ Pending ws') →
  let k := KDrainWritten (Some w) p in
  let s1 := spawn p (drain p) s in
  let s2 := (settle w o s1).2 in
  ticks s1 = ticks s ∧ micro s1 = micro s
  ∧ proms s1 !! w = Some (Pending (ws ++ [k]))
  ∧ micro s2 = micro s ++ ws ++ [k]
  ∧ proms s2 !! w = Some o
  ∧ (resume k s2).1 =
      match o with
      | Rejected e => Throw e
      | _ => Ok (AwaitTick (KDrainDone p))
      end.
Proof.
  intros Hopen Hport Hw Hprom Ho k s1 s2.
  assert (Hs1 : s1 = set_proms (<[w := Pending (ws ++ [k])]> (proms s)) s).
  { subst s1. unfold spawn, drain. unfold_prims. simpl.
    rewrite Hport, Hopen. simpl. rewrite Hw. by rewrite Hprom. }
  assert (Hs2 : s2 = set_micro (micro s ++ ws ++ [k])
                       (set_proms (<[w := o]> (<[w := Pending (ws ++ [k])]> (proms s))) s1)).
  { subst s2. rewrite Hs1. unfold settle. simpl. by rewrite lookup_insert_eq. }
  clearbody s1 s2. subst s1 s2. simpl.
  split; [done |]. split; [done |]. split; [apply lookup_insert_eq |].
  split; [done |]. split; [apply lookup_insert_eq |].
  unfold drain_written. unfold_prims. simpl. rewrite lookup_insert_eq.
  destruct o; simpl; [by destruct (Ho waiters) | done | done].
Qed.

Lemma drain_waits_for_the_write_in_flight_witness :
  let s1 := spawn 8 (drain 8) writing in
  let s2 := (settle 7 (Rejected WriteCanceled) s1).2 in
  micro s1 = [] ∧ ticks s1 = []
  ∧ micro s2 = [KDrainWritten (Some 7) 8]
  ∧ (resume (KDrainWritten (Some 7) 8) s2).1 = Throw WriteCanceled.
Proof.
  destruct (drain_waits_for_the_write_in_flight writing 0 7 8 []
              (Rejected WriteCanceled) eq_refl eq_refl eq_refl)
    as (H1 & H2 & _ & H3 & _ & H4); [reflexivity | discriminate |].
  by repeat split.
Defined.

(** ** Nothing works on an instance that is not open *)

(** X17: On an instance whose flag [isOpen] is false, and after any run of
    calls, loop turns and registry operations from such a state (so in
    particular at any time after the module was loaded, since the
    constructor sets the flag to false), every method other than [open]
    and [read] is refused at the call without any change of state, the
    rest of a [read] or of a write in flight fails with its cancellation
    error, [emitData] throws, and the rest of an [open] throws as well. *)
Theorem closed_instance_refuses_every_call (tr : list Action) (s : State) :
  isOpen (this s) = false →
  let s' := run tr s in
  isOpen (this s') = false
  ∧ (∀ c p e, refusal c = Some e → start c p s' = (Throw e, s'))
  ∧ (∀ k e, cancellation k = Some e → resume k s' = (Throw e, s'))
  ∧ (∀ d, emitData d s' = (Throw EmitNotOpen, s'))
  ∧ (∀ path options, ∃ e s2, open_resumed path options s' = (Throw e, s2)).
Proof.
  intros Hs s'. pose proof (never_open tr s Hs) as Hclosed.
  fold s' in Hclosed. clearbody s'.
  assert (Hg : ∀ e, guardOpen e s' = (Throw e, s')).
  { intros e. unfold guardOpen. unfold_prims. simpl.
    destruct (port (this s')); [| done]. by rewrite Hclosed. }
  split; [exact Hclosed |]. split; [| split; [| split]].
  - intros c p e Hc.
    destruct c as [| | | [r | v] | [[] | o] | | | | |]; simpl in Hc;
      try discriminate; injection Hc as <-; simpl;
      unfold close, write, update, set, get, getBaudRate, flush, drain;
      unfold mbind, M_bind, getThis, throw; simpl;
      rewrite ?Hg, ?Hclosed; try done.
    destruct (typeof_number (prop o "baudRate")); simpl; by rewrite ?Hg.
  - intros k e Hk. destruct k; simpl in Hk; try discriminate;
      injection Hk as <-; simpl;
      unfold read_resumed, write_resumed, mbind, M_bind; by rewrite Hg.
  - intros d. unfold emitData, mbind, M_bind, getThis. by rewrite Hg.
  - intros path options.
    destruct (open_resumed_on_closed path options s' Hclosed) as (e & s2 & H & _).
    by exists e, s2.
Qed.

Lemma closed_instance_refuses_every_call_witness :
  let s' := run open_attempt initial in
  start CFlush 9 s' = (Throw NotOpen, s')
  ∧ resume (KRead parked_read) s' = (Throw ReadCanceled, s').
Proof.
  destruct (closed_instance_refuses_every_call open_attempt initial eq_refl)
    as (_ & H1 & H2 & _).
  split; [by apply H1 | by apply H2].
Defined.

(** ** Device objects stay, and so does what createPort fixed *)

Lemma devices_kept_refl h : devices_kept h h.
Proof. intros l dev Hl. by exists dev. Qed.

Lemma devices_kept_trans h1 h2 h3 :
  devices_kept h1 h2 → devices_kept h2 h3 → devices_kept h1 h3.
Proof.
  intros H12 H23 l dev Hl. destruct (H12 l dev Hl) as (dev2 & Hl2 & Hs2).
  destruct (H23 l dev2 Hl2) as (dev3 & Hl3 & Hs3).
  exists dev3. split; [done | congruence].
Qed.

(** Overwriting an object with one that has the same fixed part. *)
Lemma devices_kept_insert h l p p' :
  h !! l = Some p → static p' = static p → devices_kept h (<[l := p']> h).
Proof.
  intros Hl Hs l0 dev Hl0. destruct (decide (l0 = l)) as [-> | Hne].
  - rewrite lookup_insert_eq. exists p'. split; [done | congruence].
  - rewrite lookup_insert_ne by done. by exists dev.
Qed.

(** Adding an object where there was none. *)
Lemma devices_kept_alloc h l p : h !! l = None → devices_kept h (<[l := p]> h).
Proof.
  intros Hl l0 dev Hl0. rewrite lookup_insert_ne; [by exists dev |].
  intros <-. congruence.
Qed.

Section KeepsDevices.
Context {A B : Type}.

Lemma kd_ret (a : A) : keeps_devices (mret a).
Proof. intros s. apply devices_kept_refl. Qed.

Lemma kd_throw (e : Error) : keeps_devices (@throw A e).
Proof. intros s. apply devices_kept_refl. Qed.

Lemma kd_bind (m : M A) (k : A → M B) :
  keeps_devices m → (∀ a, keeps_devices (k a)) → keeps_devices (m ≫= k).
Proof.
  intros Hm Hk s. unfold mbind, M_bind. specialize (Hm s).
  destruct (m s) as [[a | e] s']; simpl in *; [| done].
  eapply devices_kept_trans; [exact Hm | apply Hk].
Qed.

Lemma kd_frame (m : M A) : (∀ s, heap (m s).2 = heap s) → keeps_devices m.
Proof. intros Hm s. rewrite Hm. apply devices_kept_refl. Qed.

End KeepsDevices.

Lemma heap_settle q o s : heap (settle q o s).2 = heap s.
Proof. apply settle_frame. Qed.

(** Each method that writes a device, case by case. *)
Lemma kd_emitData d : keeps_devices (emitData d).
Proof.
  intros s. unfold emitData. unfold_prims. simpl.
  destruct (port (this s)) as [l |]; simpl; [| apply devices_kept_refl].
  destruct (isOpen (this s)); simpl; [| apply devices_kept_refl].
  destruct (heap s !! l) as [p |] eqn:Hl; simpl; [| apply devices_kept_refl].
  destruct (pendingRead (this s)); simpl; by apply (devices_kept_insert _ _ p).
Qed.

Lemma kd_open_resumed path options : keeps_devices (open_resumed path options).
Proof.
  intros s. unfold open_resumed. unfold_prims. simpl.
  destruct (ports s !! path) as [l |]; simpl; [| apply devices_kept_refl].
  destruct (heap s !! l) as [p |] eqn:Hl; simpl; [| apply devices_kept_refl].
  destruct (lock_held p); simpl; [apply devices_kept_refl |].
  destruct (isOpen (this s)); simpl; [| apply devices_kept_refl].
  destruct (echo p); simpl; by apply (devices_kept_insert _ _ p).
Qed.

Lemma kd_close : keeps_devices close.
Proof.
  intros s.
  unfold close, guardOpen, deref, store, modThis, getThis, throw,
    mbind, mret, M_bind, M_ret. simpl.
  destruct (port (this s)) as [l |]; simpl; [| apply devices_kept_refl].
  destruct (isOpen (this s)); simpl; [| apply devices_kept_refl].
  destruct (heap s !! l) as [p |] eqn:Hl; simpl; [| apply devices_kept_refl].
  destruct (pendingRead (this s)) as [rk |]; simpl;
    [| by apply (devices_kept_insert _ _ p)].
  match goal with
  | |- context [settle ?q ?o ?s0] =>
      pose proof (heap_settle q o s0) as Hh;
      destruct (settle q o s0) as [[[] | e] s']
  end; simpl in *; rewrite Hh; by apply (devices_kept_insert _ _ p).
Qed.

Lemma kd_read_resumed rk : keeps_devices (read_resumed rk).
Proof.
  intros s. unfold read_resumed. unfold_prims. simpl.
  destruct (port (this s)) as [l |]; simpl; [| apply devices_kept_refl].
  destruct (isOpen (this s)); simpl; [| apply devices_kept_refl].
  destruct (heap s !! l) as [p |] eqn:Hl; simpl; [| apply devices_kept_refl].
  case_bool_decide; simpl; [apply devices_kept_refl |].
  destruct (bufs s !! rk_buffer rk); simpl; [| apply devices_kept_refl].
  by apply (devices_kept_insert _ _ p).
Qed.

Lemma kd_update_resumed b : keeps_devices (update_resumed b).
Proof.
  intros s. unfold update_resumed, openOpt_of_this. unfold_prims. simpl.
  destruct (port (this s)) as [l |]; simpl; [| apply devices_kept_refl].
  destruct (heap s !! l) as [p |] eqn:Hl; simpl; [| apply devices_kept_refl].
  destruct (openOpt p); simpl; [| apply devices_kept_refl].
  by apply (devices_kept_insert _ _ p).
Qed.

Lemma kd_flush_resumed : keeps_devices flush_resumed.
Proof.
  intros s. unfold flush_resumed. unfold_prims. simpl.
  destruct (port (this s)) as [l |]; simpl; [| apply devices_kept_refl].
  destruct (heap s !! l) as [p |] eqn:Hl; simpl; [| apply devices_kept_refl].
  by apply (devices_kept_insert _ _ p).
Qed.

Lemma kd_deref l : keeps_devices (deref l).
Proof. apply kd_frame. intros s. unfold deref. by destruct (heap s !! l). Qed.

Lemma kd_readBuf r : keeps_devices (readBuf r).
Proof. apply kd_frame. intros s. unfold readBuf. by destruct (bufs s !! r). Qed.

Create HintDb kd.
#[local] Hint Resolve kd_deref kd_readBuf kd_close kd_emitData : kd.

Ltac kd_walk :=
  repeat first
    [ apply kd_ret
    | apply kd_throw
    | solve [auto with kd]
    | solve [apply kd_frame; reflexivity]
    | apply kd_bind; [| intros]
    | match goal with
      | |- keeps_devices (match ?x with _ => _ end) => destruct x
      | |- keeps_devices (if ?x then _ else _) => destruct x
      end ].

Lemma kd_guardOpen e : keeps_devices (guardOpen e).
Proof. unfold guardOpen. kd_walk. Qed.

Lemma kd_openOpt_of_this : keeps_devices openOpt_of_this.
Proof. unfold openOpt_of_this. kd_walk. Qed.

#[local] Hint Resolve kd_guardOpen kd_openOpt_of_this : kd.

Lemma kd_start c p : keeps_devices (start c p).
Proof.
  destruct c; simpl; try apply kd_close;
    unfold open, read, write, update, set, get, getBaudRate, flush, drain; kd_walk.
Qed.

Lemma kd_resume k : keeps_devices (resume k).
Proof.
  destruct k; simpl;
    [ apply kd_open_resumed | apply kd_read_resumed | | apply kd_update_resumed
    | | | | apply kd_flush_resumed | | ];
    unfold write_resumed, set_resumed, get_resumed, getBaudRate_resumed,
      drain_written, drain_done, lookupProm; kd_walk.
Qed.

Lemma kd_spawn p m s : keeps_devices m → devices_kept (heap s) (heap (spawn p m s)).
Proof.
  intros Hm. unfold spawn. specialize (Hm s).
  destruct (m s) as [[[v | k | [w |] k |] | e] s']; simpl in *;
    rewrite ?heap_settle; try done.
  by destruct (proms s' !! w) as [[] |].
Qed.

Lemma kd_run_callback m s :
  keeps_devices m → devices_kept (heap s) (heap (run_callback m s)).
Proof.
  intros Hm. unfold run_callback. specialize (Hm s).
  by destruct (m s) as [[[] | e] s'].
Qed.

Lemma kd_loop_step s : devices_kept (heap s) (heap (loop_step s)).
Proof.
  unfold loop_step. destruct (in_micro s).
  - destruct (micro s) as [| k ks]; [apply devices_kept_refl |].
    unfold run_micro. apply (kd_spawn _ _ (set_micro ks s)), kd_resume.
  - destruct (ticks s) as [| t ts]; [destruct (micro s); apply devices_kept_refl |].
    destruct t; unfold run_tick; [apply devices_kept_refl | | |].
    + apply (kd_run_callback _ (set_ticks ts s)). kd_walk.
    + apply (kd_run_callback _ (set_ticks ts s)). kd_walk.
    + apply (kd_spawn _ _ (set_ticks ts s)). unfold read. kd_walk.
Qed.

Lemma kd_exec a s : devices_kept (heap s) (heap (exec a s)).
Proof.
  destruct a; simpl; try apply devices_kept_refl.
  - unfold call. simpl.
    apply (kd_spawn _ _ (set_proms _ s)), kd_start.
  - apply kd_emitData.
  - unfold createPort. simpl. apply devices_kept_alloc, createPort_fresh.
  - unfold poke. destruct (bufs s !! r); apply devices_kept_refl.
  - apply kd_loop_step.
Qed.

(** X18: A device object, once created, is never removed and never changes its
    name, serial number, echo flag, record flag or ready data: through
    every call, emission, turn of the loop, [reset] and [createPort]
    (also one for the same path), the object is still in the store with
    that part unchanged.  Only its receive buffer and its open options
    move. *)
Theorem devices_keep_their_fixed_part
    (tr : list Action) (s : State) (l : loc) (dev : MockPort) :
  heap s !! l = Some dev →
  ∃ dev', heap (run tr s) !! l = Some dev'
    ∧ info dev' = info dev ∧ echo dev' = echo dev
    ∧ record dev' = record dev ∧ readyData dev' = readyData dev.
Proof.
  intros Hl.
  assert (H : devices_kept (heap s) (heap (run tr s))).
  { clear. unfold run. revert s. induction tr as [| a tr IH]; intros s.
    - apply devices_kept_refl.
    - simpl. eapply devices_kept_trans; [apply kd_exec | apply IH]. }
  destruct (H l dev Hl) as (dev' & Hl' & Hs). exists dev'.
  unfold static in Hs. injection Hs as -> -> -> ->. done.
Qed.

Lemma devices_keep_their_fixed_part_witness :
  ∃ dev', heap (run [AReset; ACreatePort "/dev/ROBOT" no_options; AEmitData AB; ACall CClose]
                  (opened true true [])) !! 0 = Some dev'
    ∧ echo dev' = true ∧ record dev' = true.
Proof.
  destruct (devices_keep_their_fixed_part
              [AReset; ACreatePort "/dev/ROBOT" no_options; AEmitData AB; ACall CClose]
              (opened true true []) 0 (robot true true [] (Some ∅)) eq_refl)
    as (dev' & H1 & _ & H2 & H3 & _).
  exists dev'. by repeat split.
Defined.

(** ** More on open, and on calls in flight at close *)

(** X5: The rest of [open] succeeds only on an instance whose flag [isOpen]
    is already true, for a registered device that is not locked.  It then
    stores a copy of the options in the device, takes over the device's
    serial number, and points the instance at the device; the receive
    buffer of the device and every other device object are left alone
    (so a device the instance held before is not released). *)
Theorem open_succeeds_only_when_already_open
    (path : string) (options : JsVal) (s s' : State) (v : Next) :
  open_resumed path options s = (Ok v, s') →
  isOpen (this s) = true
  ∧ ∃ l dev,
      ports s !! path = Some l ∧ heap s !! l = Some dev ∧ lock_held dev = false
      ∧ heap s' = <[l := set_openOpt (Some (object_assign options)) dev]> (heap s)
      ∧ port (this s') = Some l
      ∧ isOpen (this s') = true
      ∧ inst_serialNumber (this s') = Some (info_serialNumber (info dev))
      ∧ (∀ l', l' ≠ l → heap s' !! l' = heap s !! l').
Proof.
  unfold open_resumed. unfold_prims. simpl.
  destruct (ports s !! path) as [l |] eqn:Hpath; simpl; [| done].
  destruct (heap s !! l) as [dev |] eqn:Hdev; simpl; [| done].
  destruct (lock_held dev) eqn:Hlock; simpl; [done |].
  destruct (isOpen (this s)) eqn:Hopen; simpl; [| done].
  intros Hok. split; [done |]. exists l, dev.
  destruct (echo dev); simpl in Hok; injection Hok as <- <-; simpl;
    (repeat split; try done; intros l' Hne; by rewrite lookup_insert_ne).
Qed.

Lemma open_succeeds_only_when_already_open_witness :
  isOpen (this two_devices) = true
  ∧ ∃ s', open_resumed "/dev/other" options9600 two_devices = (Ok (Return VUnit), s')
      ∧ port (this s') = Some 1
      ∧ (openOpt <$> heap s' !! 0) = Some (Some ∅).
Proof.
  assert (H : ∃ s', open_resumed "/dev/other" options9600 two_devices
                    = (Ok (Return VUnit), s')) by (eexists; vm_compute; reflexivity).
  destruct H as (s' & Hs').
  destruct (open_succeeds_only_when_already_open _ _ _ _ _ Hs')
    as (H0 & l & dev & Hp & _ & _ & _ & Hport & _ & _ & Hother).
  split; [exact H0 |]. exists s'. split; [exact Hs' |].
  vm_compute in Hp. injection Hp as <-.
  split; [exact Hport |]. by rewrite Hother.
Defined.

(** After a [close] that did not throw, both fields are cleared. *)
Lemma close_ok_link (s s' : State) (v : Next) :
  close s = (Ok v, s') → isOpen (this s') = false ∧ port (this s') = None.
Proof.
  unfold close, guardOpen, deref, store, modThis, getThis, throw,
    mbind, mret, M_bind, M_ret. simpl.
  destruct (port (this s)) as [l |]; simpl; [| done].
  destruct (isOpen (this s)); simpl; [| done].
  destruct (heap s !! l) as [p |]; simpl; [| done].
  destruct (pendingRead (this s)) as [rk |]; simpl; [| by intros [= <- <-]].
  match goal with
  | |- context [settle ?q ?o ?s0] =>
      pose proof (this_settle q o s0) as Hi;
      destruct (settle q o s0) as [[[] | e] s1]
  end; simpl in *; [| done].
  intros [= <- <-]. by rewrite Hi.
Qed.

(** X19: What becomes of calls that were accepted and are waiting for their
    tick when the port is closed: on the instance [close] leaves behind,
    the rest of [get], of [set] and of [drain] still resolve; the rest of
    [flush], of [update] and of [getBaudRate] fail with the runtime's
    TypeError on [this.port], not with 'Port is not open'; the rest of a
    [read] fails with 'Read canceled' and the write in flight with 'Write
    canceled'.  None of them changes the state. *)
Theorem calls_in_flight_at_close (s s' : State) (v : Next) :
  close s = (Ok v, s') →
  (∀ p, resume (KGet p) s' = (Ok (Return (VFlags true false false)), s'))
  ∧ (∀ p, resume (KSet p) s' = (Ok (Return VUnit), s'))
  ∧ (∀ p, resume (KDrainDone p) s' = (Ok (Return VUnit), s'))
  ∧ (∀ p, resume (KFlush p) s' = (Throw JsTypeError, s'))
  ∧ (∀ b p, resume (KUpdate b p) s' = (Throw JsTypeError, s'))
  ∧ (∀ p, resume (KGetBaudRate p) s' = (Throw JsTypeError, s'))
  ∧ (∀ rk, resume (KRead rk) s' = (Throw ReadCanceled, s'))
  ∧ (∀ r p, resume (KWrite r p) s' = (Throw WriteCanceled, s')).
Proof.
  intros Hc. destruct (close_ok_link s s' v Hc) as [_ Hport].
  repeat split; intros; simpl;
    unfold flush_resumed, update_resumed, getBaudRate_resumed, openOpt_of_this,
      read_resumed, write_resumed;
    unfold_prims; simpl; by rewrite Hport.
Qed.

Lemma calls_in_flight_at_close_witness :
  ∃ s', close (opened false false AB) = (Ok (Return VUnit), s')
    ∧ resume (KFlush 1) s' = (Throw JsTypeError, s')
    ∧ resume (KGet 2) s' = (Ok (Return (VFlags true false false)), s').
Proof.
  assert (H : ∃ s', close (opened false false AB) = (Ok (Return VUnit), s'))
    by (eexists; vm_compute; reflexivity).
  destruct H as (s' & Hs').
  destruct (calls_in_flight_at_close _ _ _ Hs') as (H1 & _ & _ & H2 & _).
  exists s'. split; [exact Hs' |]. split; [apply H2 | apply H1].
Defined.

Lemma fields_agree_kept_witness :
  fields_agree (this (opened false false AB))
  ∧ fields_agree (this (start CClose 1 (opened false false AB)).2)
  ∧ fields_agree (this (resume (KFlush 1) (opened false false AB)).2).
Proof.
  assert (H : fields_agree (this (opened false false AB)))
    by (split; [by eexists | done]).
  destruct (fields_agree_kept (opened false false AB) H) as (H1 & H2 & _).
  split; [exact H |]. split; [apply H1 | by apply H2].
Defined.
